(** * lit-data-table: sort-state store, row ordering and pagination

    A shallow embedding of [src/utility.ts] ([isDefined], [baseComparator])
    and of the [DataTable] class of [src/data-table.ts] (the sort-state
    store, [sortData], [setColumnSort], [toggleColumnSort],
    [clearColumnSort], [clearTableSort], [pageCount], [getDisplayData]),
    followed by the properties of the specification that concern them.

    Modelling conventions.
    - A JavaScript [number] is an integer of [Z]: cell values, comparator
      results, priorities, page sizes and page indices are integers; NaN,
      infinities and fractions are outside the model.
    - A JavaScript string is a [string] of the Standard Library; [<] on
      strings is the lexicographic order on character codes.
    - An object is known by its reference: a column definition carries the
      field [ref], and the [Map] of sort states compares keys by it.
    - [Array.prototype.sort] is the stable sort the language standard
      prescribes, written as a stable insertion sort.
    - [Map] keeps its entries in insertion order: an association list. *)

From Stdlib Require Import ZArith List Bool Lia String Ascii.
From Stdlib Require Import Permutation Sorted FinFun QArith Qround DecimalString.
Import ListNotations.

Local Open Scope Z_scope.

(* ================================================================== *)
(** ** JavaScript values that a cell renderer can return *)

Module Js.

(** [RenderPrimitive] of [types.ts], with one constructor for every other
    renderable object (template results, directive results, DOM nodes):
    such an object has an identity [ref] and the text [String(_)] gives. *)
Inductive Value : Type :=
| VUndefined
| VNull
| VBoolean (b : bool)
| VNumber (n : Z)
| VString (s : string)
| VBigInt (n : Z)
| VSymbol (ref : nat) (description : string)
| VObject (ref : nat) (text : string).

(** [a === b]. *)
Definition strictEq (a b : Value) : bool :=
  match a, b with
  | VUndefined, VUndefined => true
  | VNull, VNull => true
  | VBoolean x, VBoolean y => Bool.eqb x y
  | VNumber x, VNumber y => x =? y
  | VString x, VString y => String.eqb x y
  | VBigInt x, VBigInt y => x =? y
  | VSymbol x _, VSymbol y _ => Nat.eqb x y
  | VObject x _, VObject y _ => Nat.eqb x y
  | _, _ => false
  end.

(** [typeof v === 'number']. *)
Definition isNumber (v : Value) : bool :=
  match v with VNumber _ => true | _ => false end.

(** Decimal text of an integer, as [String(n)] prints it. *)
Definition stringOfZ (n : Z) : string :=
  NilZero.string_of_int (Z.to_int n).

(** [String(v)]. *)
Definition toString (v : Value) : string :=
  match v with
  | VUndefined => "undefined"
  | VNull => "null"
  | VBoolean true => "true"
  | VBoolean false => "false"
  | VNumber n => stringOfZ n
  | VString s => s
  | VBigInt n => stringOfZ n
  | VSymbol _ d => ("Symbol(" ++ d ++ ")")%string
  | VObject _ t => t
  end.

(** [Array.prototype.sort(comparefn)]: [x] stays in front of [y] when
    [comparefn(x, y) <= 0], elements that compare equal keep their order.
    The elements are rows or store entries, none of them [undefined] (which
    the language would move to the end without asking [comparefn]). *)
Fixpoint insert {A : Type} (comparefn : A -> A -> Z) (x : A) (l : list A)
  : list A :=
  match l with
  | [] => [x]
  | y :: l' =>
      if comparefn x y <=? 0 then x :: y :: l'
      else y :: insert comparefn x l'
  end.

Fixpoint sort {A : Type} (comparefn : A -> A -> Z) (l : list A) : list A :=
  match l with
  | [] => []
  | x :: l' => insert comparefn x (sort comparefn l')
  end.

(** A relative index of [slice] resolved against the length: negative
    indices count from the end, and the result is clamped to [0, len]. *)
Definition clampIndex (len i : Z) : Z :=
  if i <? 0 then Z.max (len + i) 0 else Z.min i len.

(** [Array.prototype.slice(start, end)]. *)
Definition slice {A : Type} (l : list A) (start end_ : Z) : list A :=
  let len := Z.of_nat (List.length l) in
  let k := clampIndex len start in
  let final := clampIndex len end_ in
  firstn (Z.to_nat (Z.max (final - k) 0)) (skipn (Z.to_nat k) l).

(** [Math.ceil(a / b)] on integers: the division is exact, in [Q]. *)
Definition ceilDiv (a b : Z) : Z :=
  Qceiling (inject_Z a / inject_Z b).

End Js.

(* ================================================================== *)
(** ** [Map]: an insertion-ordered association list *)

Module JsMap.
Section Ops.
Context {K V : Type}.
Variable same : K -> K -> bool.

Definition t : Type := list (K * V).

Fixpoint get (k : K) (m : t) : option V :=
  match m with
  | [] => None
  | (k', v) :: m' => if same k k' then Some v else get k m'
  end.

(** [set] overwrites the value of a present key where it stands and
    appends a new key at the end. *)
Fixpoint set (k : K) (v : V) (m : t) : t :=
  match m with
  | [] => [(k, v)]
  | (k', v') :: m' =>
      if same k k' then (k', v) :: m' else (k', v') :: set k v m'
  end.

Fixpoint delete (k : K) (m : t) : t :=
  match m with
  | [] => []
  | (k', v') :: m' =>
      if same k k' then m' else (k', v') :: delete k m'
  end.

Definition clear (m : t) : t := [].
Definition entries (m : t) : list (K * V) := m.
Definition values (m : t) : list V := map snd m.
Definition keys (m : t) : list K := map fst m.
Definition size (m : t) : Z := Z.of_nat (List.length m).
End Ops.
End JsMap.

(* ================================================================== *)
(** ** [utility.ts] *)

Module Utility.
Import Js.

(** [Comparator<T>] of [types.ts]. *)
Definition Comparator (T : Type) : Type := T -> T -> Z.

Definition isDefined (value : Value) : bool :=
  match value with
  | VUndefined | VNull => false
  | _ => true
  end.

(** A computation that records the arguments of every call it makes to the
    matcher: the result together with the calls, in order. *)
Definition Traced (A : Type) : Type := (A * list (Value * Value))%type.

Definition ret {A : Type} (x : A) : Traced A := (x, []).

Definition call (matcher : Comparator Value) (a b : Value) : Traced Z :=
  (matcher a b, [(a, b)]).

(** [baseComparator(selector, matcher)(sourceA, sourceB)], with the calls
    to [matcher] recorded. *)
Definition baseComparatorTraced {S : Type} (selector : S -> Value)
  (matcher : Comparator Value) (sourceA sourceB : S) : Traced Z :=
  let a := selector sourceA in
  let b := selector sourceB in
  if strictEq a b || (negb (isDefined a) && negb (isDefined b)) then ret 0
  else if isDefined a && isDefined b then call matcher a b
  else ret (if isDefined a then -1 else 1).

(** [baseComparator(selector, matcher)]: the comparator itself. *)
Definition baseComparator {S : Type} (selector : S -> Value)
  (matcher : Comparator Value) : Comparator S :=
  fun sourceA sourceB => fst (baseComparatorTraced selector matcher sourceA sourceB).

(** A value of type [number | undefined]. *)
Definition ofNumber (n : option Z) : Value :=
  match n with
  | Some z => VNumber z
  | None => VUndefined
  end.


End Utility.

(* ================================================================== *)
(** ** [data-table.ts] *)

Section DataTableClass.
Import Js Utility.
Context {Row : Type}.

(** [ColumnRenderState]: the renderer is given the row index; the table and
    the column it also receives are not part of the model. *)
Record ColumnRenderState : Type := { rowIndex : Z }.

(** [sortable?: boolean | SortConfig<T>]. *)
Inductive SortableOption : Type :=
| SortableAbsent
| SortableFlag (flag : bool)
| SortableConfig (comparator : Comparator Row).

Record ColumnDefinition : Type := {
  ref : nat;
  render : Row -> ColumnRenderState -> Value;
  id : option string;
  header : Value;
  sortable : SortableOption
}.

Record SortState : Type := {
  direction : Z;
  priority : Z
}.

(** Two keys of the [Map] are the same key when they are the same object. *)
Definition sameColumn (a b : ColumnDefinition) : bool :=
  Nat.eqb (ref a) (ref b).

Definition SortStates : Type := list (ColumnDefinition * SortState).

(** The fields of a [DataTable]. [updateRequests] and [sortRuns] count the
    calls of [requestUpdate] and [sortData]. *)
Record DataTable : Type := {
  sortStates : SortStates;
  data : list Row;
  columns : list ColumnDefinition;
  pageSize : Z;
  pageIndex : Z;
  multiSort : bool;
  updateRequests : nat;
  sortRuns : nat
}.

Definition withSortStates (t : DataTable) (s : SortStates) : DataTable :=
  {| sortStates := s; data := data t; columns := columns t;
     pageSize := pageSize t; pageIndex := pageIndex t;
     multiSort := multiSort t; updateRequests := updateRequests t;
     sortRuns := sortRuns t |}.

Definition requestUpdate (t : DataTable) : DataTable :=
  {| sortStates := sortStates t; data := data t; columns := columns t;
     pageSize := pageSize t; pageIndex := pageIndex t;
     multiSort := multiSort t; updateRequests := S (updateRequests t);
     sortRuns := sortRuns t |}.

Definition pageCount (t : DataTable) : Z :=
  if pageSize t >? 0
  then ceilDiv (Z.of_nat (List.length (data t))) (pageSize t)
  else 0.

(** [[...sortStates.entries()].sort((a, b) => a[1].priority - b[1].priority)] *)
Definition priorityOrder (s : SortStates) : list (ColumnDefinition * SortState) :=
  Js.sort (fun a b => priority (snd a) - priority (snd b))
    (JsMap.entries s).

(** The matcher of the derived comparator of [sortData]. *)
Definition valueMatcher : Comparator Value :=
  fun valueA valueB =>
    match valueA, valueB with
    | VNumber x, VNumber y => x - y
    | _, _ =>
        let stringA := toString valueA in
        let stringB := toString valueB in
        if String.eqb stringA stringB then 0
        else if String.ltb stringA stringB then -1 else 1
    end.

(** The result of one column for two rows: the immediately invoked function
    in the loop of [sortData]. *)
Definition columnResult (column : ColumnDefinition) (rowA rowB : Row) : Z :=
  match sortable column with
  | SortableConfig comparator => comparator rowA rowB
  | _ =>
      baseComparator (fun row => render column row {| rowIndex := -1 |})
        valueMatcher rowA rowB
  end.

(** The comparator [sortData] hands to [data.sort]: the loop over
    [priorityOrder]. *)
Fixpoint rowComparator (order : list (ColumnDefinition * SortState))
  (rowA rowB : Row) : Z :=
  match order with
  | [] => 0
  | (column, state) :: rest =>
      let result := columnResult column rowA rowB in
      if negb (result =? 0) then result * direction state
      else rowComparator rest rowA rowB
  end.

Definition sortData (t : DataTable) : DataTable :=
  {| sortStates := sortStates t;
     data := Js.sort (rowComparator (priorityOrder (sortStates t))) (data t);
     columns := columns t;
     pageSize := pageSize t; pageIndex := pageIndex t;
     multiSort := multiSort t; updateRequests := updateRequests t;
     sortRuns := S (sortRuns t) |}.

(** [array.forEach((entry, index) => ...)] as a fold that threads the
    state the callback mutates. *)
Fixpoint forEachFrom {A St : Type} (index : Z) (f : A -> Z -> St -> St)
  (l : list A) (s : St) : St :=
  match l with
  | [] => s
  | x :: l' => forEachFrom (index + 1) f l' (f x index s)
  end.

(** The renumbering of [setColumnSort], after the entry was deleted. *)
Definition renumber (s : SortStates) : SortStates :=
  forEachFrom 0
    (fun entry index m =>
       JsMap.set sameColumn (fst entry)
         {| direction := direction (snd entry); priority := index + 1 |} m)
    (priorityOrder s) s.

(** The priority of a new entry:
    [values.reduce((result, {priority}) => Math.max(result, priority + 1), 1)] *)
Definition nextPriority (s : SortStates) : Z :=
  fold_left (fun result state => Z.max result (priority state + 1))
    (JsMap.values s) 1.

(** The three branches of [setColumnSort]: the store after the call and
    the flag [shouldSort]. *)
Definition setColumnSortStates (s : SortStates) (column : ColumnDefinition)
  (dir : Z) : SortStates * bool :=
  match JsMap.get sameColumn column s with
  | Some sortState =>
      if negb (dir =? 0) && negb (direction sortState =? dir) then
        (JsMap.set sameColumn column
           {| direction := dir; priority := priority sortState |} s, true)
      else if dir =? 0 then
        let s' := renumber (JsMap.delete sameColumn column s) in
        (s', JsMap.size s' >? 0)
      else (s, false)
  | None =>
      if negb (dir =? 0) then
        (JsMap.set sameColumn column
           {| direction := dir; priority := nextPriority s |} s, true)
      else (s, false)
  end.

Definition setColumnSort (t : DataTable) (column : ColumnDefinition)
  (dir : Z) : DataTable :=
  let (s', shouldSort) := setColumnSortStates (sortStates t) column dir in
  let t' := withSortStates t s' in
  requestUpdate (if shouldSort then sortData t' else t').

Definition clearTableSort (t : DataTable) : DataTable :=
  requestUpdate (withSortStates t (JsMap.clear (sortStates t))).

Definition clearColumnSort (t : DataTable) (column : ColumnDefinition)
  : DataTable :=
  setColumnSort t column 0.

Definition toggleColumnSort (t : DataTable) (column : ColumnDefinition)
  : DataTable :=
  let sortState := JsMap.get sameColumn column (sortStates t) in
  let t' := if negb (multiSort t) then clearTableSort t else t in
  setColumnSort t' column
    ((match sortState with
      | Some state => direction state
      | None => -1
      end) * -1).

Definition getDisplayData (t : DataTable) : list Row :=
  if negb (pageSize t =? 0) then
    let start := pageIndex t * pageSize t in
    let end_ := start + pageSize t in
    Js.slice (data t) start end_
  else data t.

End DataTableClass.

Arguments ColumnDefinition Row : clear implicits.
Arguments SortableOption Row : clear implicits.
Arguments DataTable Row : clear implicits.
Arguments SortStates Row : clear implicits.

(* ================================================================== *)
(** ** Calls on a table, the data model's invariants, reference definitions *)

Section Model.
Import Js Utility.
Context {Row : Type}.

Local Abbreviation Column := (ColumnDefinition Row).
Local Abbreviation Entry := (ColumnDefinition Row * SortState)%type.

(** The four state-changing methods, and the assignment of the public
    property [multiSort], which a caller may do between two calls. *)
Inductive Call : Type :=
| ToggleColumnSort (column : Column)
| ClearColumnSort (column : Column)
| SetColumnSort (column : Column) (dir : Z)
| ClearTableSort
| AssignMultiSort (flag : bool).

Definition assignMultiSort (t : DataTable Row) (flag : bool) : DataTable Row :=
  {| sortStates := sortStates t; data := data t; columns := columns t;
     pageSize := pageSize t; pageIndex := pageIndex t;
     multiSort := flag; updateRequests := updateRequests t;
     sortRuns := sortRuns t |}.

Definition perform (t : DataTable Row) (c : Call) : DataTable Row :=
  match c with
  | ToggleColumnSort column => toggleColumnSort t column
  | ClearColumnSort column => clearColumnSort t column
  | SetColumnSort column dir => setColumnSort t column dir
  | ClearTableSort => clearTableSort t
  | AssignMultiSort flag => assignMultiSort t flag
  end.

(** The calls are made one after the other, the first of the list first. *)
Definition performAll (t : DataTable Row) (calls : list Call) : DataTable Row :=
  fold_left perform calls t.

(** [direction: -1 | 1] of [SortState]. *)
Definition validDirection (state : SortState) : Prop :=
  direction state = -1 \/ direction state = 1.

(** The references of the keys of a store. *)
Definition keyRefs (s : SortStates Row) : list nat :=
  map (fun e : Entry => ref (fst e)) s.

(** The priorities of a store, in storage order. *)
Definition priorities (s : SortStates Row) : list Z :=
  map priority (JsMap.values s).

(** The integers [1..n]. *)
Definition range1 (n : nat) : list Z := map Z.of_nat (seq 1 n).

(** The priorities are the contiguous range [1..N], [N] the number of
    entries, each taken once. *)
Definition densePriorities (s : SortStates Row) : Prop :=
  Permutation (priorities s) (range1 (List.length s)).

(** The invariant of the store: no column has two entries, and the
    priorities are dense. *)
Definition storeInvariant (s : SortStates Row) : Prop :=
  NoDup (keyRefs s) /\ densePriorities s.

(** The current direction of a column, if it has an entry. *)
Definition directionOf (t : DataTable Row) (column : Column) : option Z :=
  option_map direction (JsMap.get sameColumn column (sortStates t)).

(** [currentDirection ?? -1]. *)
Definition orMinusOne (d : option Z) : Z :=
  match d with
  | Some x => x
  | None => -1
  end.

(** A precedence chain renumbered densely from [index + 1], the order and
    the directions kept. *)
Fixpoint reindex (index : Z) (chain : list Entry) : list Entry :=
  match chain with
  | [] => []
  | (column, state) :: rest =>
      (column, {| direction := direction state; priority := index + 1 |})
        :: reindex (index + 1) rest
  end.

(** *** Reference definitions, after the words of the specification *)

(** Section 4.1: both absent, 0; exactly one absent, the defined one first;
    equal by identity, 0; otherwise the matcher. *)
Definition referenceBaseComparator {S : Type} (selector : S -> Value)
  (matcher : Value -> Value -> Z) (sourceA sourceB : S) : Z :=
  let a := selector sourceA in
  let b := selector sourceB in
  match isDefined a, isDefined b with
  | false, false => 0
  | true, false => -1
  | false, true => 1
  | true, true => if strictEq a b then 0 else matcher a b
  end.

(** Section 4.3: numeric subtraction when both values are numbers, else
    both coerced to text and compared: 0 if equal, -1 or 1 otherwise. *)
Definition referenceMatcher (valueA valueB : Value) : Z :=
  if isNumber valueA && isNumber valueB then
    match valueA, valueB with
    | VNumber x, VNumber y => x - y
    | _, _ => 0
    end
  else
    match String.compare (toString valueA) (toString valueB) with
    | Eq => 0
    | Lt => -1
    | Gt => 1
    end.

(** The result of one column: its own comparator when [sortable] is a
    comparator object, otherwise the value comparator derived from the
    rendered cells. *)
Definition referenceColumnResult (column : Column) (rowA rowB : Row) : Z :=
  match sortable column with
  | SortableConfig comparator => comparator rowA rowB
  | SortableFlag _ | SortableAbsent =>
      referenceBaseComparator
        (fun row => render column row {| rowIndex := -1 |})
        referenceMatcher rowA rowB
  end.

(** The composed comparator over a precedence chain: each result is
    multiplied by the direction, the first non-zero product is returned,
    and 0 when every entry ties. *)
Fixpoint referenceComparator (chain : list Entry) (rowA rowB : Row) : Z :=
  match chain with
  | [] => 0
  | (column, state) :: rest =>
      let result := referenceColumnResult column rowA rowB * direction state in
      if result =? 0 then referenceComparator rest rowA rowB else result
  end.

(** A chain is a precedence chain of a store when it holds the entries of
    the store in ascending order of priority. *)
Definition precedenceChainOf (s : SortStates Row) (chain : list Entry) : Prop :=
  Permutation chain s /\
  StronglySorted (fun a b : Entry => priority (snd a) < priority (snd b)) chain.

(** Section 4.4: the rows of the page, without any index arithmetic
    relative to the end of the collection. *)
Definition referencePage (rows : list Row) (size index : Z) : list Row :=
  firstn (Z.to_nat size) (skipn (Z.to_nat (index * size)) rows).

End Model.

(* ================================================================== *)
(** ** A concrete table *)

Module Sample.
Import Js Utility.

(** A row is its sort key, which may be absent. *)
Definition SampleRow : Type := option Z.

(** A column that renders the key and sorts by the derived comparator. *)
Definition keyColumn (r : nat) : ColumnDefinition SampleRow :=
  {| ref := r;
     render := fun row _ => ofNumber row;
     id := None;
     header := VString "n";
     sortable := SortableFlag true |}.

(** A column without the [sortable] flag. *)
Definition plainColumn (r : nat) : ColumnDefinition SampleRow :=
  {| ref := r;
     render := fun row _ => ofNumber row;
     id := None;
     header := VString "n";
     sortable := SortableAbsent |}.

Definition table (rows : list SampleRow) (multi : bool) (size index : Z)
  : DataTable SampleRow :=
  {| sortStates := [];
     data := rows;
     columns := [keyColumn 0; keyColumn 1; plainColumn 2];
     pageSize := size;
     pageIndex := index;
     multiSort := multi;
     updateRequests := 0;
     sortRuns := 0 |}.

Definition state (d p : Z) : SortState := {| direction := d; priority := p |}.

(** Two columns sorted: column 0 ascending first, column 1 descending next. *)
Definition twoColumnStore : SortStates SampleRow :=
  [(keyColumn 0, state 1 1); (keyColumn 1, state (-1) 2)].

(** The rows [{n:3}, {n:1}, {n:2}]. *)
Definition threeRows : list SampleRow := [Some 3; Some 1; Some 2].

(** Ten rows, numbered from 0. *)
Definition tenRows : list SampleRow :=
  map (fun n => Some (Z.of_nat n)) (seq 0 10).

End Sample.

(* ================================================================== *)
(** ** The rest of [utility.ts] and of the [DataTable] class *)

Section MoreDefinitions.
Import Js Utility.

(** An argument of [spaceList]: [string | undefined | Record<string, boolean>].
    A record is given as [Object.entries] lists it. *)
Inductive ClassValue : Type :=
| ClassString (s : string)
| ClassUndefined
| ClassRecord (entries : list (string * bool)).

(** What the callback of [values.flatMap] returns for one argument:
    nothing for a falsy one ([undefined] or the empty string), the string
    itself, or the keys of the record whose condition is true. *)
Definition classTokens (value : ClassValue) : list string :=
  match value with
  | ClassUndefined => []
  | ClassString s => if String.eqb s "" then [] else [s]
  | ClassRecord entries =>
      flat_map (fun entry : string * bool =>
                  if snd entry then [fst entry] else []) entries
  end.

(** [spaceList(...values)]: the tokens joined by one space. *)
Definition spaceList (values : list ClassValue) : string :=
  String.concat " " (flat_map classTokens values).

(** No key of a record argument that is switched on is the empty string. *)
Definition noEmptyKeys (value : ClassValue) : Prop :=
  match value with
  | ClassRecord entries =>
      Forall (fun entry : string * bool =>
                snd entry = true -> fst entry <> ""%string) entries
  | _ => True
  end.

(** A value of type [string | undefined]. *)
Definition ofString (s : option string) : Value :=
  match s with
  | Some x => VString x
  | None => VUndefined
  end.

(** [textComparator(selector, locales, collatorOptions)]. What
    [a.localeCompare(b, locales, collatorOptions)] returns is the host's
    business: [localeCompare] stands for it. The matcher only ever
    receives strings. *)
Definition textComparator {T : Type} (localeCompare : string -> string -> Z)
  (selector : T -> option string) : Comparator T :=
  baseComparator (fun source => ofString (selector source))
    (fun a b =>
       match a, b with
       | VString x, VString y => localeCompare x y
       | _, _ => 0
       end).

(** A comparator is consistent on a domain when the signs of
    [cmp a b] and [cmp b a] are opposite and [cmp _ _ <= 0] is transitive:
    what [Array.prototype.sort] asks of its [comparefn]. *)
Definition consistentOn {T : Type} (D : T -> Prop) (cmp : T -> T -> Z) : Prop :=
  (forall a b, D a -> D b -> (0 < cmp a b <-> cmp b a < 0)) /\
  (forall a b c, D a -> D b -> D c ->
                 cmp a b <= 0 -> cmp b c <= 0 -> cmp a c <= 0).


(** Strings in ascending order of [String.compare], absent ones last. *)
Definition textsThenAbsent (a b : option string) : Prop :=
  match a, b with
  | Some x, Some y => String.compare x y <> Gt
  | _, None => True
  | None, Some _ => False
  end.

End MoreDefinitions.

Section MoreDataTable.
Import Js Utility.
Context {Row : Type}.

Local Abbreviation Column := (ColumnDefinition Row).

(** [columnClass(column, index)]. *)
Definition columnClass (column : Column) (index : Z) : string :=
  spaceList
    [ClassString "cell";
     ClassString ("column-" ++ stringOfZ index);
     match id column with
     | Some s => ClassString s
     | None => ClassUndefined
     end].

(** [map(items, (item, index) => ...)]. *)
Fixpoint mapIndexedFrom {A B : Type} (index : Z) (f : A -> Z -> B)
  (l : list A) : list B :=
  match l with
  | [] => []
  | x :: l' => f x index :: mapIndexedFrom (index + 1) f l'
  end.

Definition mapIndexed {A B : Type} (f : A -> Z -> B) (l : list A) : list B :=
  mapIndexedFrom 0 f l.

(** A [td] of the body: its class and its content. *)
Record Cell : Type := {
  cellClass : string;
  cellContent : Value
}.

(** [pageFactor] of [render]. *)
Definition pageFactor (t : DataTable Row) : Z :=
  pageIndex t * pageSize t.

(** One [tr] of the body, as [render] builds it for the row that stands
    at [rowIndex] in the displayed page. *)
Definition renderRow (t : DataTable Row) (row : Row) (rowIndex : Z)
  : list Cell :=
  mapIndexed
    (fun column columnIndex =>
       {| cellClass := columnClass column columnIndex;
          cellContent :=
            render column row {| rowIndex := rowIndex + pageFactor t |} |})
    (columns t).

(** The [tbody] of [render]: one row of cells per displayed row. *)
Definition renderBody (t : DataTable Row) : list (list Cell) :=
  mapIndexed (renderRow t) (getDisplayData t).

(** The assignment [table.pageIndex = index]. *)
Definition assignPageIndex (t : DataTable Row) (index : Z) : DataTable Row :=
  {| sortStates := sortStates t; data := data t; columns := columns t;
     pageSize := pageSize t; pageIndex := index;
     multiSort := multiSort t; updateRequests := updateRequests t;
     sortRuns := sortRuns t |}.

(** The pages [0 .. pageCount - 1], each as [getDisplayData()] returns it. *)
Definition allPages (t : DataTable Row) : list (list Row) :=
  map (fun n => getDisplayData (assignPageIndex t (Z.of_nat n)))
    (seq 0 (Z.to_nat (pageCount t))).

(** A call whose direction argument has the type [-1 | 0 | 1]. *)
Definition typedCall (c : @Call Row) : Prop :=
  match c with
  | SetColumnSort _ dir => dir = -1 \/ dir = 0 \/ dir = 1
  | _ => True
  end.


(** The cell of a row in a column, as [sortData] asks for it. *)
Definition sortCell (column : Column) (row : Row) : Value :=
  render column row {| rowIndex := -1 |}.


(** The text in a cell, if the cell holds a string. *)
Definition cellText (column : Column) (row : Row) : option string :=
  match sortCell column row with
  | VString s => Some s
  | _ => None
  end.

(** Every cell of the column is a number or is absent. *)
Definition numberColumn (D : Row -> Prop) (column : Column) : Prop :=
  (forall comparator, sortable column <> SortableConfig comparator) /\
  forall row, D row ->
    isDefined (sortCell column row) = false \/
    exists n, sortCell column row = VNumber n.

(** Every cell of the column is a string or is absent. *)
Definition textColumn (D : Row -> Prop) (column : Column) : Prop :=
  (forall comparator, sortable column <> SortableConfig comparator) /\
  forall row, D row ->
    isDefined (sortCell column row) = false \/
    exists s, sortCell column row = VString s.

End MoreDataTable.

Module Sample2.
Import Js Utility.
Local Open Scope string_scope.

(** A row with a numeric key that may be absent and a name. *)
Definition NamedRow : Type := (option Z * string)%type.

Definition keyOf (r : nat) : ColumnDefinition NamedRow :=
  {| ref := r;
     render := fun row _ => ofNumber (fst row);
     id := Some "key";
     header := VString "key";
     sortable := SortableFlag true |}.

Definition nameOf (r : nat) : ColumnDefinition NamedRow :=
  {| ref := r;
     render := fun row _ => VString (snd row);
     id := None;
     header := VString "name";
     sortable := SortableFlag true |}.

Definition people : list NamedRow :=
  [(Some 2, "eve"); (Some 1, "bob"); (None, "zed"); (Some 2, "al");
   (Some 1, "cy")].

Definition namedTable (multi : bool) (size index : Z) : DataTable NamedRow :=
  {| sortStates := [];
     data := people;
     columns := [keyOf 0; nameOf 1];
     pageSize := size;
     pageIndex := index;
     multiSort := multi;
     updateRequests := 0;
     sortRuns := 0 |}.

(** Sorted by key ascending, then by name descending. *)
Definition keyThenName : SortStates NamedRow :=
  [(keyOf 0, {| direction := 1; priority := 1 |});
   (nameOf 1, {| direction := -1; priority := 2 |})].


(** A stand-in for [localeCompare]: the order of [String.compare]. *)
Definition codeCompare (a b : string) : Z :=
  match String.compare a b with
  | Eq => 0
  | Lt => -1
  | Gt => 1
  end.

End Sample2.

(* ================================================================== *)
(** ** Facts about [sort] and [slice] *)

Section SortFacts.
Context {A : Type}.
Variable comparefn : A -> A -> Z.

Lemma insert_permutation (x : A) (l : list A) :
  Permutation (Js.insert comparefn x l) (x :: l).
Proof.
  induction l as [|y l IH]; simpl.
  - apply Permutation_refl.
  - destruct (comparefn x y <=? 0).
    + apply Permutation_refl.
    + eapply perm_trans; [apply perm_skip, IH | apply perm_swap].
Qed.

Lemma sort_permutation (l : list A) : Permutation (Js.sort comparefn l) l.
Proof.
  induction l as [|x l IH]; simpl.
  - constructor.
  - eapply perm_trans; [apply insert_permutation | apply perm_skip, IH].
Qed.

Lemma sort_length (l : list A) :
  List.length (Js.sort comparefn l) = List.length l.
Proof. apply Permutation_length, sort_permutation. Qed.

End SortFacts.

Section SortByKey.
Context {A : Type}.
Variable key : A -> Z.

Let byKey : A -> A -> Z := fun a b => key a - key b.
Let ascending : A -> A -> Prop := fun a b => key a <= key b.
Let strictlyAscending : A -> A -> Prop := fun a b => key a < key b.

Lemma insert_ascending (x : A) (l : list A) :
  StronglySorted ascending l ->
  StronglySorted ascending (Js.insert byKey x l).
Proof.
  induction 1 as [|y l Hs IH Hy]; simpl.
  - repeat constructor.
  - unfold byKey at 1. destruct (Z.leb_spec (key x - key y) 0) as [Hle|Hgt].
    + constructor.
      * constructor; assumption.
      * constructor; [unfold ascending; lia|].
        eapply Forall_impl; [|exact Hy].
        unfold ascending; intros; lia.
    + constructor; [exact IH|].
      eapply Permutation_Forall;
        [apply Permutation_sym, insert_permutation|].
      constructor; [unfold ascending; lia | exact Hy].
Qed.

Lemma sort_ascending (l : list A) :
  StronglySorted ascending (Js.sort byKey l).
Proof.
  induction l; simpl; [constructor | now apply insert_ascending].
Qed.

(** A list has at most one arrangement in strictly ascending key order. *)
Lemma ascending_unique (l1 l2 : list A) :
  Permutation l1 l2 ->
  StronglySorted ascending l1 ->
  StronglySorted strictlyAscending l2 ->
  l1 = l2.
Proof.
  revert l1. induction l2 as [|b l2 IH]; intros l1 Hp H1 H2.
  - now apply Permutation_sym, Permutation_nil in Hp.
  - destruct l1 as [|a l1].
    + apply Permutation_nil in Hp. discriminate.
    + inversion H1 as [|? ? H1s H1a]; subst.
      inversion H2 as [|? ? H2s H2b]; subst.
      assert (Hab : a = b).
      { assert (Ha : In a (b :: l2))
          by (eapply Permutation_in; [exact Hp | now left]).
        assert (Hb : In b (a :: l1))
          by (eapply Permutation_in;
              [apply Permutation_sym; exact Hp | now left]).
        destruct Ha as [->|Ha]; [reflexivity|].
        destruct Hb as [->|Hb]; [reflexivity|].
        rewrite Forall_forall in H1a, H2b.
        specialize (H1a _ Hb). specialize (H2b _ Ha).
        unfold ascending, strictlyAscending in *. lia. }
      subst a. f_equal.
      apply IH; try assumption.
      now apply Permutation_cons_inv in Hp.
Qed.

End SortByKey.

(* ================================================================== *)
(** ** Facts about the sort-state store *)

Section StoreFacts.
Import Js Utility.
Context {Row : Type}.

Local Abbreviation Column := (ColumnDefinition Row).
Local Abbreviation Entry := (ColumnDefinition Row * SortState)%type.
Local Abbreviation Store := (SortStates Row).

Lemma sameColumn_true (a b : Column) :
  sameColumn a b = true <-> ref a = ref b.
Proof. unfold sameColumn. apply Nat.eqb_eq. Qed.

Lemma sameColumn_false (a b : Column) :
  sameColumn a b = false <-> ref a <> ref b.
Proof. unfold sameColumn. apply Nat.eqb_neq. Qed.

Lemma sameColumn_refl (a : Column) : sameColumn a a = true.
Proof. now apply sameColumn_true. Qed.

Lemma get_none_iff (c : Column) (s : Store) :
  JsMap.get sameColumn c s = None <-> ~ In (ref c) (keyRefs s).
Proof.
  induction s as [|[k v] s IH]; simpl.
  - tauto.
  - destruct (sameColumn c k) eqn:E.
    + apply sameColumn_true in E. split; [discriminate|]. intros H; exfalso; auto.
    + apply sameColumn_false in E. rewrite IH. split.
      * intros H [H'|H']; [congruence | auto].
      * intros H H'. apply H. now right.
Qed.

(** A present key splits the store around its entry. *)
Lemma get_some_split (c : Column) (s : Store) (v : SortState) :
  JsMap.get sameColumn c s = Some v ->
  exists l1 k l2,
    s = l1 ++ (k, v) :: l2 /\ ref k = ref c /\ ~ In (ref c) (keyRefs l1) /\
    (forall nv, JsMap.set sameColumn c nv s = l1 ++ (k, nv) :: l2) /\
    JsMap.delete sameColumn c s = l1 ++ l2.
Proof.
  induction s as [|[k w] s IH]; simpl; [discriminate|].
  destruct (sameColumn c k) eqn:E.
  - intros [= ->]. apply sameColumn_true in E.
    exists [], k, s. simpl. repeat split; auto.
  - intros H. apply sameColumn_false in E.
    destruct (IH H) as (l1 & k' & l2 & -> & Hk & Hn & Hset & Hdel).
    exists ((k, w) :: l1), k', l2. simpl. repeat split; auto.
    + intros [H'|H']; [congruence | auto].
    + intros nv. now rewrite Hset.
    + now rewrite Hdel.
Qed.

Lemma set_absent (c : Column) (s : Store) (v : SortState) :
  JsMap.get sameColumn c s = None ->
  JsMap.set sameColumn c v s = s ++ [(c, v)].
Proof.
  induction s as [|[k w] s IH]; simpl; [reflexivity|].
  destruct (sameColumn c k); [discriminate|].
  intros H. now rewrite IH.
Qed.

Lemma delete_absent (c : Column) (s : Store) :
  JsMap.get sameColumn c s = None ->
  JsMap.delete sameColumn c s = s.
Proof.
  induction s as [|[k w] s IH]; simpl; [reflexivity|].
  destruct (sameColumn c k); [discriminate|].
  intros H. now rewrite IH.
Qed.

Lemma get_set_same (c : Column) (s : Store) (v : SortState) :
  JsMap.get sameColumn c (JsMap.set sameColumn c v s) = Some v.
Proof.
  induction s as [|[k w] s IH]; simpl.
  - now rewrite sameColumn_refl.
  - destruct (sameColumn c k) eqn:E; simpl; now rewrite E.
Qed.

Lemma get_app_absent (c : Column) (l1 l2 : Store) :
  ~ In (ref c) (keyRefs l1) ->
  JsMap.get sameColumn c (l1 ++ l2) = JsMap.get sameColumn c l2.
Proof.
  induction l1 as [|[k w] l1 IH]; simpl; [reflexivity|].
  intros H. destruct (sameColumn c k) eqn:E.
  - apply sameColumn_true in E. exfalso; auto.
  - apply IH. auto.
Qed.

Lemma keyRefs_app (l1 l2 : Store) :
  keyRefs (l1 ++ l2) = keyRefs l1 ++ keyRefs l2.
Proof. unfold keyRefs. apply map_app. Qed.

Lemma priorities_app (l1 l2 : Store) :
  priorities (l1 ++ l2) = priorities l1 ++ priorities l2.
Proof. unfold priorities, JsMap.values. now rewrite !map_app. Qed.

Lemma keyRefs_permutation (l1 l2 : Store) :
  Permutation l1 l2 -> Permutation (keyRefs l1) (keyRefs l2).
Proof. apply Permutation_map. Qed.

Lemma priorities_permutation (l1 l2 : Store) :
  Permutation l1 l2 -> Permutation (priorities l1) (priorities l2).
Proof.
  intros H. unfold priorities, JsMap.values.
  now do 2 apply Permutation_map.
Qed.

Lemma priorityOrder_permutation (s : Store) :
  Permutation (priorityOrder s) s.
Proof. apply sort_permutation. Qed.

Lemma priorityOrder_ascending (s : Store) :
  StronglySorted (fun a b : Entry => priority (snd a) <= priority (snd b))
    (priorityOrder s).
Proof. apply (sort_ascending (fun e : Entry => priority (snd e))). Qed.

(** The chain the code consults is the precedence chain of the store,
    whenever the store has one. *)
Lemma priorityOrder_unique (s : Store) (chain : list Entry) :
  precedenceChainOf s chain -> priorityOrder s = chain.
Proof.
  intros [Hp Hs].
  apply (ascending_unique (fun e : Entry => priority (snd e))).
  - eapply perm_trans; [apply priorityOrder_permutation|].
    now apply Permutation_sym.
  - apply priorityOrder_ascending.
  - exact Hs.
Qed.

End StoreFacts.

Section Renumbering.
Import Js Utility.
Context {Row : Type}.

Local Abbreviation Column := (ColumnDefinition Row).
Local Abbreviation Entry := (ColumnDefinition Row * SortState)%type.
Local Abbreviation Store := (SortStates Row).

(** With distinct keys, [set] on an entry of the store rewrites that entry
    and nothing else. *)
Lemma set_entry (k : Column) (v : SortState) (s : Store) :
  NoDup (keyRefs s) -> In (k, v) s ->
  exists l1 l2,
    s = l1 ++ (k, v) :: l2 /\
    forall nv, JsMap.set sameColumn k nv s = l1 ++ (k, nv) :: l2.
Proof.
  induction s as [|[k0 w] s IH]; simpl; [intros _ []|].
  intros Hnd [Heq|Hin].
  - injection Heq as -> ->. exists [], s. simpl.
    rewrite sameColumn_refl. auto.
  - inversion Hnd as [|? ? Hk0 Hnd']; subst.
    assert (E : sameColumn k k0 = false).
    { apply sameColumn_false. intros Hr. apply Hk0. rewrite <- Hr.
      unfold keyRefs. apply (in_map (fun e : Entry => ref (fst e)) _ _ Hin). }
    rewrite E.
    destruct (IH Hnd' Hin) as (l1 & l2 & -> & Hset).
    exists ((k0, w) :: l1), l2. simpl. split; [reflexivity|].
    intros nv. now rewrite Hset.
Qed.

Lemma get_entry (k : Column) (v : SortState) (s : Store) :
  NoDup (keyRefs s) -> In (k, v) s ->
  JsMap.get sameColumn k s = Some v.
Proof.
  intros Hnd Hin.
  destruct (set_entry k v s Hnd Hin) as (l1 & l2 & -> & _).
  rewrite keyRefs_app in Hnd. simpl in Hnd.
  rewrite get_app_absent.
  - simpl. now rewrite sameColumn_refl.
  - intros H. apply NoDup_remove_2 in Hnd. apply Hnd.
    apply in_or_app. now left.
Qed.

Lemma keyRefs_reindex (i : Z) (chain : list Entry) :
  keyRefs (reindex i chain) = keyRefs chain.
Proof.
  revert i. induction chain as [|[k v] chain IH]; intros i; simpl.
  - reflexivity.
  - f_equal. apply IH.
Qed.

Lemma length_reindex (i : Z) (chain : list Entry) :
  List.length (reindex i chain) = List.length chain.
Proof.
  revert i. induction chain as [|[k v] chain IH]; intros i; simpl; auto.
Qed.

Lemma range1_S (n : nat) :
  range1 (S n) = 1 :: map (fun j => 1 + j) (range1 n).
Proof.
  unfold range1. change (seq 1 (S n)) with (1%nat :: seq 2 n).
  cbn [map]. f_equal.
  rewrite <- seq_shift, !map_map. apply map_ext. intros m. lia.
Qed.

Lemma in_range1 (n : nat) (p : Z) :
  In p (range1 n) <-> 1 <= p <= Z.of_nat n.
Proof.
  unfold range1. rewrite in_map_iff. split.
  - intros (m & <- & Hm). apply in_seq in Hm. lia.
  - intros H. exists (Z.to_nat p). split; [lia|]. apply in_seq. split; lia.
Qed.

Lemma priorities_reindex (i : Z) (chain : list Entry) :
  priorities (reindex i chain) =
  map (fun j => i + j) (range1 (List.length chain)).
Proof.
  revert i. induction chain as [|[k v] chain IH]; intros i.
  - reflexivity.
  - cbn [List.length]. rewrite range1_S.
    unfold priorities, JsMap.values in *.
    cbn [reindex map snd priority]. f_equal.
    rewrite IH, map_map. apply map_ext. intros n. lia.
Qed.

Lemma reindex_lower_bound (i : Z) (chain : list Entry) :
  Forall (fun e : Entry => i < priority (snd e)) (reindex i chain).
Proof.
  revert i. induction chain as [|[k v] chain IH]; intros i; simpl.
  - constructor.
  - constructor; [simpl; lia|].
    eapply Forall_impl; [|apply (IH (i + 1))]. simpl. intros; lia.
Qed.

Lemma reindex_sorted (i : Z) (chain : list Entry) :
  StronglySorted (fun a b : Entry => priority (snd a) < priority (snd b))
    (reindex i chain).
Proof.
  revert i. induction chain as [|[k v] chain IH]; intros i; simpl.
  - constructor.
  - constructor; [apply IH|].
    eapply Forall_impl; [|apply (reindex_lower_bound (i + 1))].
    simpl. intros; lia.
Qed.

(** The loop of the renumbering rewrites the entries of the chain it walks
    and leaves the others. *)
Lemma forEachFrom_renumber (chain : list Entry) :
  forall (i : Z) (m rest : Store),
    NoDup (keyRefs (chain ++ rest)) ->
    Permutation m (chain ++ rest) ->
    Permutation
      (forEachFrom i
         (fun (entry : Entry) index m =>
            JsMap.set sameColumn (fst entry)
              {| direction := direction (snd entry); priority := index + 1 |} m)
         chain m)
      (reindex i chain ++ rest).
Proof.
  induction chain as [|[k v] chain IH]; intros i m rest Hnd Hp; simpl.
  - exact Hp.
  - set (nv := {| direction := direction v; priority := i + 1 |}).
    assert (Hndm : NoDup (keyRefs m)).
    { eapply Permutation_NoDup; [|exact Hnd].
      apply Permutation_sym, keyRefs_permutation, Hp. }
    assert (Hin : In (k, v) m).
    { eapply Permutation_in; [apply Permutation_sym, Hp|]. now left. }
    destruct (set_entry k v m Hndm Hin) as (l1 & l2 & Hm & Hset).
    rewrite (Hset nv).
    assert (Hrest : Permutation (l1 ++ l2) (chain ++ rest)).
    { subst m. simpl in Hp.
      apply Permutation_sym, Permutation_cons_app_inv in Hp.
      now apply Permutation_sym. }
    eapply perm_trans.
    + apply (IH (i + 1) _ ((k, nv) :: rest)).
      * eapply Permutation_NoDup; [|exact Hnd].
        rewrite !keyRefs_app. simpl. apply Permutation_middle.
      * eapply perm_trans; [apply Permutation_sym, Permutation_middle|].
        eapply perm_trans; [apply perm_skip, Hrest|].
        apply Permutation_middle.
    + apply Permutation_sym, Permutation_middle.
Qed.

Lemma renumber_permutation (s : Store) :
  NoDup (keyRefs s) ->
  Permutation (renumber s) (reindex 0 (priorityOrder s)).
Proof.
  intros Hnd. unfold renumber.
  rewrite <- (app_nil_r (reindex 0 (priorityOrder s))).
  apply forEachFrom_renumber; rewrite app_nil_r.
  - eapply Permutation_NoDup; [|exact Hnd].
    apply Permutation_sym, keyRefs_permutation, priorityOrder_permutation.
  - apply Permutation_sym, priorityOrder_permutation.
Qed.

(** After the renumbering the chain is the old chain, renumbered. *)
Lemma priorityOrder_renumber (s : Store) :
  NoDup (keyRefs s) ->
  priorityOrder (renumber s) = reindex 0 (priorityOrder s).
Proof.
  intros Hnd. apply priorityOrder_unique. split.
  - apply Permutation_sym, renumber_permutation, Hnd.
  - apply reindex_sorted.
Qed.

Lemma length_renumber (s : Store) :
  NoDup (keyRefs s) -> List.length (renumber s) = List.length s.
Proof.
  intros Hnd.
  rewrite (Permutation_length (renumber_permutation s Hnd)), length_reindex.
  apply sort_length.
Qed.

Lemma keyRefs_renumber (s : Store) :
  NoDup (keyRefs s) -> Permutation (keyRefs (renumber s)) (keyRefs s).
Proof.
  intros Hnd.
  eapply perm_trans;
    [apply keyRefs_permutation, renumber_permutation, Hnd|].
  rewrite keyRefs_reindex.
  apply keyRefs_permutation, priorityOrder_permutation.
Qed.

Lemma renumber_dense (s : Store) :
  NoDup (keyRefs s) -> densePriorities (renumber s).
Proof.
  intros Hnd. unfold densePriorities.
  eapply perm_trans;
    [apply priorities_permutation, renumber_permutation, Hnd|].
  rewrite priorities_reindex, length_renumber by exact Hnd.
  unfold priorityOrder. rewrite sort_length. unfold JsMap.entries.
  rewrite map_ext with (g := fun j => j) by (intros; lia).
  rewrite map_id. apply Permutation_refl.
Qed.

End Renumbering.

(* ================================================================== *)
(** ** The invariant of the store is kept by every call *)

Section Invariant.
Import Js Utility.
Context {Row : Type}.

Local Abbreviation Column := (ColumnDefinition Row).
Local Abbreviation Entry := (ColumnDefinition Row * SortState)%type.
Local Abbreviation Store := (SortStates Row).

Lemma reduce_max_bounds (l : list SortState) (acc : Z) :
  let r := fold_left (fun result state => Z.max result (priority state + 1)) l acc in
  acc <= r /\
  (forall state, In state l -> priority state + 1 <= r) /\
  (r = acc \/ exists state, In state l /\ r = priority state + 1).
Proof.
  revert acc. induction l as [|x l IH]; intros acc; simpl.
  - repeat split; [lia | intros ? [] | now left].
  - destruct (IH (Z.max acc (priority x + 1))) as (Hge & Hall & Hin).
    repeat split.
    + lia.
    + intros state [<-|H]; [lia | now apply Hall].
    + destruct Hin as [Hr|(state & Hs & Hr)].
      * destruct (Z.max_spec acc (priority x + 1)) as [[_ E]|[_ E]].
        -- right. exists x. split; [now left | congruence].
        -- left. congruence.
      * right. exists state. split; [now right | exact Hr].
Qed.

Lemma range1_NoDup (n : nat) : NoDup (range1 n).
Proof.
  unfold range1. apply Injective_map_NoDup.
  - intros x y H. lia.
  - apply seq_NoDup.
Qed.

Lemma range1_snoc (n : nat) :
  range1 (S n) = range1 n ++ [Z.of_nat n + 1].
Proof.
  unfold range1. rewrite seq_S, map_app. simpl. do 2 f_equal. lia.
Qed.

Lemma priorities_in (s : Store) (p : Z) :
  In p (priorities s) <-> exists state, In state (JsMap.values s) /\ priority state = p.
Proof.
  unfold priorities. rewrite in_map_iff. split; intros (x & H1 & H2); eauto.
Qed.

(** In a store with dense priorities a new entry is numbered [N + 1]. *)
Lemma nextPriority_dense (s : Store) :
  densePriorities s -> nextPriority s = Z.of_nat (List.length s) + 1.
Proof.
  intros Hd. unfold nextPriority.
  destruct (reduce_max_bounds (JsMap.values s) 1) as (Hge & Hall & Hin).
  set (r := fold_left _ _ _) in *.
  assert (Hup : r <= Z.of_nat (List.length s) + 1).
  { destruct Hin as [->|(state & Hs & ->)]; [lia|].
    assert (H : In (priority state) (range1 (List.length s))).
    { eapply Permutation_in; [exact Hd|]. apply priorities_in. eauto. }
    apply in_range1 in H. lia. }
  destruct (List.length s) as [|n] eqn:E; [lia|].
  assert (H : In (Z.of_nat (S n)) (priorities s)).
  { eapply Permutation_in; [apply Permutation_sym, Hd|].
    rewrite E. apply in_range1. lia. }
  apply priorities_in in H. destruct H as (state & Hs & Hp).
  specialize (Hall _ Hs). lia.
Qed.

Lemma storeInvariant_empty : storeInvariant (@nil Entry).
Proof. split; [constructor | apply Permutation_refl]. Qed.

Lemma setColumnSortStates_invariant (s : Store) (column : Column) (dir : Z) :
  storeInvariant s ->
  storeInvariant (fst (setColumnSortStates s column dir)).
Proof.
  intros [Hnd Hd]. unfold setColumnSortStates.
  destruct (JsMap.get sameColumn column s) as [sortState|] eqn:G.
  - destruct (get_some_split _ _ _ G)
      as (l1 & k & l2 & Hs & Hk & Hl1 & Hset & Hdel).
    destruct (negb (dir =? 0) && negb (direction sortState =? dir)).
    + simpl. rewrite Hset. subst s. split.
      * rewrite keyRefs_app in *. exact Hnd.
      * unfold densePriorities in *.
        rewrite priorities_app, length_app in *. exact Hd.
    + destruct (dir =? 0); simpl; [|now split].
      assert (Hnd' : NoDup (keyRefs (JsMap.delete sameColumn column s))).
      { rewrite Hdel. subst s. rewrite keyRefs_app in *. simpl in Hnd.
        now apply NoDup_remove_1 in Hnd. }
      split.
      * eapply Permutation_NoDup; [|exact Hnd'].
        apply Permutation_sym, keyRefs_renumber, Hnd'.
      * apply renumber_dense, Hnd'.
  - destruct (negb (dir =? 0)); simpl; [|now split].
    rewrite set_absent by exact G. split.
    + rewrite keyRefs_app. simpl.
      eapply Permutation_NoDup; [apply Permutation_cons_append|].
      constructor; [now apply get_none_iff | exact Hnd].
    + unfold densePriorities.
      rewrite priorities_app, length_app, Nat.add_comm. simpl.
      rewrite range1_snoc, (nextPriority_dense s Hd).
      now apply Permutation_app_tail.
Qed.

Lemma sortStates_setColumnSort (t : DataTable Row) (column : Column) (dir : Z) :
  sortStates (setColumnSort t column dir) =
  fst (setColumnSortStates (sortStates t) column dir).
Proof.
  unfold setColumnSort.
  destruct (setColumnSortStates (sortStates t) column dir) as [s' []];
    reflexivity.
Qed.

Lemma perform_invariant (t : DataTable Row) (c : Call) :
  storeInvariant (sortStates t) ->
  storeInvariant (sortStates (perform t c)).
Proof.
  intros H. destruct c as [column|column|column dir| |flag]; simpl.
  - unfold toggleColumnSort. rewrite sortStates_setColumnSort.
    apply setColumnSortStates_invariant.
    destruct (negb (multiSort t)); [apply storeInvariant_empty | exact H].
  - unfold clearColumnSort. rewrite sortStates_setColumnSort.
    now apply setColumnSortStates_invariant.
  - rewrite sortStates_setColumnSort.
    now apply setColumnSortStates_invariant.
  - apply storeInvariant_empty.
  - exact H.
Qed.

Lemma performAll_invariant (calls : list Call) (t : DataTable Row) :
  storeInvariant (sortStates t) ->
  storeInvariant (sortStates (performAll t calls)).
Proof.
  revert t. induction calls as [|c calls IH]; intros t H; simpl.
  - exact H.
  - apply IH, perform_invariant, H.
Qed.

(** C2. Starting from an empty store, after any sequence of calls of
    [toggleColumnSort], [clearColumnSort], [setColumnSort] and
    [clearTableSort] (with [multiSort] set at will in between), the
    priorities of the entries are exactly [1..N], [N] the number of
    entries, and no two entries share a priority. *)
Theorem priorities_contiguous (t : DataTable Row) (calls : list Call) :
  sortStates t = [] ->
  let s := sortStates (performAll t calls) in
  Permutation (priorities s) (range1 (List.length s)) /\
  NoDup (priorities s).
Proof.
  intros Hempty s.
  assert (H : storeInvariant s).
  { apply performAll_invariant. rewrite Hempty. apply storeInvariant_empty. }
  destruct H as [_ Hd]. split; [exact Hd|].
  eapply Permutation_NoDup; [apply Permutation_sym, Hd | apply range1_NoDup].
Qed.

End Invariant.

(* ================================================================== *)
(** ** Comparators *)

Section Comparators.
Import Js Utility.

Lemma strictEq_defined (a b : Value) :
  strictEq a b = true -> isDefined a = isDefined b.
Proof. destruct a, b; simpl; intros H; try reflexivity; discriminate. Qed.

Lemma baseComparator_reference {S : Type} (selector : S -> Value)
  (matcher : Comparator Value) (sourceA sourceB : S) :
  baseComparator selector matcher sourceA sourceB =
  referenceBaseComparator selector matcher sourceA sourceB.
Proof.
  unfold baseComparator, baseComparatorTraced, referenceBaseComparator, ret, call.
  destruct (strictEq (selector sourceA) (selector sourceB)) eqn:E.
  - apply strictEq_defined in E. rewrite E.
    now destruct (isDefined (selector sourceB)).
  - now destruct (isDefined (selector sourceA)), (isDefined (selector sourceB)).
Qed.

Lemma valueMatcher_reference (valueA valueB : Value) :
  valueMatcher valueA valueB = referenceMatcher valueA valueB.
Proof.
  assert (H : forall s1 s2 : string,
             (if String.eqb s1 s2 then 0
              else if String.ltb s1 s2 then -1 else 1) =
             match String.compare s1 s2 with
             | Eq => 0 | Lt => -1 | Gt => 1
             end).
  { intros s1 s2. unfold String.ltb.
    destruct (String.eqb_spec s1 s2) as [->|Hne].
    - pose proof (String.compare_antisym s2 s2) as Ha.
      destruct (String.compare s2 s2); simpl in Ha;
        try discriminate; reflexivity.
    - destruct (String.compare s1 s2) eqn:C; try reflexivity.
      apply String.compare_eq_iff in C. contradiction. }
  unfold valueMatcher, referenceMatcher.
  destruct valueA, valueB; cbn [isNumber andb]; try apply H; reflexivity.
Qed.

(** C7. [baseComparator(selector, matcher)] returns 0 when both selected
    values are absent, -1 when only the value of A is defined and 1 when
    only the value of B is, 0 without a call of the matcher when the two
    values are identical, and otherwise the result of the one call
    [matcher(a, b)] on the two defined values. *)
Theorem baseComparator_cases {S : Type} (selector : S -> Value)
  (matcher : Comparator Value) (sourceA sourceB : S) :
  let a := selector sourceA in
  let b := selector sourceB in
  (isDefined a = false -> isDefined b = false ->
   baseComparatorTraced selector matcher sourceA sourceB = (0, [])) /\
  (isDefined a = true -> isDefined b = false ->
   baseComparatorTraced selector matcher sourceA sourceB = (-1, [])) /\
  (isDefined a = false -> isDefined b = true ->
   baseComparatorTraced selector matcher sourceA sourceB = (1, [])) /\
  (strictEq a b = true ->
   baseComparatorTraced selector matcher sourceA sourceB = (0, [])) /\
  (isDefined a = true -> isDefined b = true -> strictEq a b = false ->
   baseComparatorTraced selector matcher sourceA sourceB
   = (matcher a b, [(a, b)])) /\
  baseComparator selector matcher sourceA sourceB
  = fst (baseComparatorTraced selector matcher sourceA sourceB).
Proof.
  intros a b. unfold baseComparator, baseComparatorTraced, ret, call.
  fold a b.
  repeat split.
  - intros -> ->. now rewrite orb_true_r.
  - intros Ha Hb. rewrite Ha, Hb.
    destruct (strictEq a b) eqn:E; [|reflexivity].
    apply strictEq_defined in E. congruence.
  - intros Ha Hb. rewrite Ha, Hb.
    destruct (strictEq a b) eqn:E; [|reflexivity].
    apply strictEq_defined in E. congruence.
  - now intros ->.
  - now intros -> -> ->.
Qed.

End Comparators.

(* ================================================================== *)
(** ** The row ordering engine *)

Section Ordering.
Import Js Utility.
Context {Row : Type}.

Local Abbreviation Column := (ColumnDefinition Row).
Local Abbreviation Entry := (ColumnDefinition Row * SortState)%type.
Local Abbreviation Store := (SortStates Row).

Lemma sort_ext {A : Type} (f g : A -> A -> Z) (l : list A) :
  (forall a b, f a b = g a b) -> Js.sort f l = Js.sort g l.
Proof.
  intros H. induction l as [|x l IH]; simpl; [reflexivity|].
  rewrite IH. generalize (Js.sort g l) as r.
  induction r as [|y r IHr]; simpl; [reflexivity|].
  now rewrite H, IHr.
Qed.

Lemma columnResult_reference (column : Column) (rowA rowB : Row) :
  columnResult column rowA rowB = referenceColumnResult column rowA rowB.
Proof.
  unfold columnResult, referenceColumnResult.
  destruct (sortable column); try reflexivity;
    rewrite baseComparator_reference; unfold referenceBaseComparator;
    now rewrite valueMatcher_reference.
Qed.

Lemma rowComparator_referenceComparator (chain : list Entry) (rowA rowB : Row) :
  Forall (fun e : Entry => validDirection (snd e)) chain ->
  rowComparator chain rowA rowB = referenceComparator chain rowA rowB.
Proof.
  induction 1 as [|[column state] chain Hd _ IH]; simpl; [reflexivity|].
  rewrite <- columnResult_reference, IH.
  destruct Hd as [Hd|Hd]; simpl in Hd; rewrite Hd;
    destruct (Z.eqb_spec (columnResult column rowA rowB) 0) as [E|E]; simpl.
  - now rewrite E.
  - destruct (Z.eqb_spec (columnResult column rowA rowB * -1) 0); [lia|reflexivity].
  - now rewrite E.
  - destruct (Z.eqb_spec (columnResult column rowA rowB * 1) 0); [lia|reflexivity].
Qed.

(** C3. For a store whose directions are -1 or 1 and for its precedence
    chain (the entries in ascending order of priority), the comparator
    that [sortData] hands to the sort is the reference comparator over the
    chain, for every two rows, and [sortData] sorts the rows by it. *)
Theorem rowComparator_is_reference (t : DataTable Row) (chain : list Entry) :
  (forall e, In e (sortStates t) -> validDirection (snd e)) ->
  precedenceChainOf (sortStates t) chain ->
  (forall rowA rowB,
     rowComparator (priorityOrder (sortStates t)) rowA rowB
     = referenceComparator chain rowA rowB) /\
  data (sortData t) = Js.sort (referenceComparator chain) (data t).
Proof.
  intros Hdir Hchain.
  assert (Hcmp : forall rowA rowB,
             rowComparator (priorityOrder (sortStates t)) rowA rowB
             = referenceComparator chain rowA rowB).
  { intros rowA rowB.
    rewrite (priorityOrder_unique _ _ Hchain).
    apply rowComparator_referenceComparator.
    apply Forall_forall. intros e He. apply Hdir.
    eapply Permutation_in; [apply (proj1 Hchain) | exact He]. }
  split; [exact Hcmp|].
  unfold sortData. simpl. now apply sort_ext.
Qed.

(** C1 (amended). When exactly one of two rows has an absent sort-key
    value, the row with the defined value is ordered first under ascending
    sort: [baseComparator] and the derived value comparator return -1 when
    only the first row's value is defined and 1 when only the second's is.
    The direction is applied to this result as to any other, so under
    descending sort the row with the absent value comes first. *)
Theorem defined_before_absent (column : Column) (state : SortState)
  (rest : list Entry) (rowA rowB : Row) :
  (forall comparator, sortable column <> SortableConfig comparator) ->
  isDefined (render column rowA {| rowIndex := -1 |}) = true ->
  isDefined (render column rowB {| rowIndex := -1 |}) = false ->
  (forall (S : Type) (selector : S -> Value) (matcher : Comparator Value)
          (x y : S),
     isDefined (selector x) = true -> isDefined (selector y) = false ->
     baseComparator selector matcher x y = -1 /\
     baseComparator selector matcher y x = 1) /\
  columnResult column rowA rowB = -1 /\
  columnResult column rowB rowA = 1 /\
  rowComparator ((column, state) :: rest) rowA rowB = - direction state /\
  rowComparator ((column, state) :: rest) rowB rowA = direction state /\
  (direction state = 1 ->
   Js.sort (rowComparator [(column, state)]) [rowB; rowA] = [rowA; rowB] /\
   Js.sort (rowComparator [(column, state)]) [rowA; rowB] = [rowA; rowB]) /\
  (direction state = -1 ->
   Js.sort (rowComparator [(column, state)]) [rowA; rowB] = [rowB; rowA] /\
   Js.sort (rowComparator [(column, state)]) [rowB; rowA] = [rowB; rowA]).
Proof.
  intros Hs Ha Hb.
  assert (Hbase : forall (S : Type) (selector : S -> Value)
                         (matcher : Comparator Value) (x y : S),
             isDefined (selector x) = true -> isDefined (selector y) = false ->
             baseComparator selector matcher x y = -1 /\
             baseComparator selector matcher y x = 1).
  { intros S selector matcher x y Hx Hy.
    rewrite !baseComparator_reference. unfold referenceBaseComparator.
    now rewrite Hx, Hy. }
  assert (Hab : columnResult column rowA rowB = -1 /\
                columnResult column rowB rowA = 1).
  { unfold columnResult.
    destruct (sortable column) as [|flag|comparator] eqn:E;
      try (now apply Hbase).
    exfalso. now apply (Hs comparator). }
  destruct Hab as [Hab Hba].
  split; [exact Hbase|].
  split; [exact Hab|]. split; [exact Hba|].
  cbn [rowComparator]. rewrite Hab, Hba.
  change (negb (-1 =? 0)) with true. change (negb (1 =? 0)) with true.
  cbn iota.
  split; [lia|]. split; [lia|].
  split; intros Hd; cbn [Js.sort Js.insert rowComparator];
    rewrite Hab, Hba, Hd; simpl; auto.
Qed.

End Ordering.

(* ================================================================== *)
(** ** Transitions of the sort-state store *)

Section Transitions.
Import Js Utility.
Context {Row : Type}.

Local Abbreviation Column := (ColumnDefinition Row).
Local Abbreviation Entry := (ColumnDefinition Row * SortState)%type.
Local Abbreviation Store := (SortStates Row).

(** The store [toggleColumnSort] hands to [setColumnSort]. *)
Local Abbreviation storeBeforeSet t :=
  (if multiSort t then sortStates t else @nil Entry).

Lemma sortStates_toggleColumnSort (t : DataTable Row) (column : Column) :
  sortStates (toggleColumnSort t column) =
  fst (setColumnSortStates (storeBeforeSet t) column
         (orMinusOne (directionOf t column) * -1)).
Proof.
  unfold toggleColumnSort. rewrite sortStates_setColumnSort.
  unfold directionOf, orMinusOne.
  destruct (multiSort t); simpl;
    destruct (JsMap.get sameColumn column (sortStates t)); reflexivity.
Qed.

Lemma multiSort_setColumnSort (t : DataTable Row) (column : Column) (dir : Z) :
  multiSort (setColumnSort t column dir) = multiSort t.
Proof.
  unfold setColumnSort.
  destruct (setColumnSortStates (sortStates t) column dir) as [s' []];
    reflexivity.
Qed.

Lemma multiSort_toggleColumnSort (t : DataTable Row) (column : Column) :
  multiSort (toggleColumnSort t column) = multiSort t.
Proof.
  unfold toggleColumnSort. rewrite multiSort_setColumnSort.
  destruct (multiSort t) eqn:E; simpl; exact E.
Qed.

Lemma sortRuns_setColumnSort (t : DataTable Row) (column : Column) (dir : Z) :
  sortRuns (setColumnSort t column dir) =
  if snd (setColumnSortStates (sortStates t) column dir)
  then S (sortRuns t) else sortRuns t.
Proof.
  unfold setColumnSort.
  destruct (setColumnSortStates (sortStates t) column dir) as [s' []];
    reflexivity.
Qed.

Lemma data_setColumnSort (t : DataTable Row) (column : Column) (dir : Z) :
  data (setColumnSort t column dir) =
  let (s', shouldSort) := setColumnSortStates (sortStates t) column dir in
  if shouldSort then Js.sort (rowComparator (priorityOrder s')) (data t)
  else data t.
Proof.
  unfold setColumnSort.
  destruct (setColumnSortStates (sortStates t) column dir) as [s' []];
    reflexivity.
Qed.

(** Setting a direction other than the current one, or any direction on a
    column without entry, leaves the column with that direction. *)
Lemma setColumnSortStates_direction (s : Store) (column : Column) (dir : Z) :
  dir <> 0 ->
  (forall state, JsMap.get sameColumn column s = Some state ->
                 direction state <> dir) ->
  exists p,
    JsMap.get sameColumn column (fst (setColumnSortStates s column dir))
    = Some {| direction := dir; priority := p |}.
Proof.
  intros Hdir Hcur. unfold setColumnSortStates.
  destruct (JsMap.get sameColumn column s) as [state|] eqn:G.
  - specialize (Hcur state eq_refl).
    destruct (Z.eqb_spec dir 0) as [|_]; [contradiction|].
    destruct (Z.eqb_spec (direction state) dir) as [|_]; [contradiction|].
    simpl. rewrite get_set_same. eauto.
  - destruct (Z.eqb_spec dir 0) as [|_]; [contradiction|].
    simpl. rewrite get_set_same. eauto.
Qed.

Lemma toggle_directionOf (t : DataTable Row) (column : Column) :
  (forall state, JsMap.get sameColumn column (sortStates t) = Some state ->
                 validDirection state) ->
  directionOf (toggleColumnSort t column) column
  = Some (orMinusOne (directionOf t column) * -1).
Proof.
  intros Hvalid. unfold directionOf at 1.
  rewrite sortStates_toggleColumnSort.
  set (dir := orMinusOne (directionOf t column) * -1).
  assert (Hdir : dir <> 0 /\
                 forall state,
                   JsMap.get sameColumn column (sortStates t) = Some state ->
                   direction state <> dir).
  { unfold dir, directionOf.
    destruct (JsMap.get sameColumn column (sortStates t)) as [state|]; simpl.
    - destruct (Hvalid state eq_refl) as [H|H]; rewrite H;
        (split; [lia|]); intros ? [= <-]; lia.
    - split; [lia | discriminate]. }
  destruct Hdir as [Hnz Hcur].
  destruct (setColumnSortStates_direction (storeBeforeSet t) column dir Hnz)
    as [p Hp].
  - destruct (multiSort t); [exact Hcur | discriminate].
  - now rewrite Hp.
Qed.

(** C4. Toggling a column without entry gives it direction 1, a second
    toggle gives -1, a third gives 1 again; in general the direction after
    a toggle is [(currentDirection ?? -1) * -1], whatever [multiSort] is. *)
Theorem toggle_cycles_direction (t : DataTable Row) (column : Column) :
  (forall state, JsMap.get sameColumn column (sortStates t) = Some state ->
                 validDirection state) ->
  directionOf (toggleColumnSort t column) column
  = Some (orMinusOne (directionOf t column) * -1) /\
  (directionOf t column = None ->
   let t1 := toggleColumnSort t column in
   let t2 := toggleColumnSort t1 column in
   let t3 := toggleColumnSort t2 column in
   directionOf t1 column = Some 1 /\
   directionOf t2 column = Some (-1) /\
   directionOf t3 column = Some 1).
Proof.
  intros Hvalid. split; [now apply toggle_directionOf|].
  intros Hnone t1 t2 t3.
  assert (Hstep : forall (u : DataTable Row) d,
             directionOf u column = Some d -> d = -1 \/ d = 1 ->
             directionOf (toggleColumnSort u column) column = Some (d * -1)).
  { intros u d Hu Hd. rewrite toggle_directionOf.
    - now rewrite Hu.
    - intros state G. unfold directionOf in Hu. rewrite G in Hu.
      injection Hu as <-. exact Hd. }
  assert (H1 : directionOf t1 column = Some 1).
  { unfold t1. rewrite toggle_directionOf by exact Hvalid.
    now rewrite Hnone. }
  assert (H2 : directionOf t2 column = Some (-1)).
  { unfold t2. now rewrite (Hstep t1 1 H1) by lia. }
  repeat split; try assumption.
  unfold t3. now rewrite (Hstep t2 (-1) H2) by lia.
Qed.

(** C5. With [multiSort = false], after [toggleColumnSort(colB)] the store
    holds exactly one entry, for [colB], with priority 1 and the direction
    computed from the entry [colB] had before the store was cleared. *)
Theorem single_sort_toggle (t : DataTable Row) (colB : Column) :
  multiSort t = false ->
  (forall state, JsMap.get sameColumn colB (sortStates t) = Some state ->
                 validDirection state) ->
  sortStates (toggleColumnSort t colB) =
  [(colB, {| direction := orMinusOne (directionOf t colB) * -1;
             priority := 1 |})].
Proof.
  intros Hsingle Hvalid.
  rewrite sortStates_toggleColumnSort, Hsingle.
  unfold setColumnSortStates. simpl JsMap.get. cbv iota.
  assert (Hnz : orMinusOne (directionOf t colB) * -1 <> 0).
  { unfold directionOf.
    destruct (JsMap.get sameColumn colB (sortStates t)) as [state|]; simpl.
    - destruct (Hvalid state eq_refl) as [H|H]; rewrite H; lia.
    - lia. }
  destruct (Z.eqb_spec (orMinusOne (directionOf t colB) * -1) 0);
    [contradiction | reflexivity].
Qed.

Lemma toggle_absent (t : DataTable Row) (column : Column) :
  JsMap.get sameColumn column (sortStates t) = None ->
  sortStates (toggleColumnSort t column) =
  storeBeforeSet t ++
  [(column, {| direction := 1; priority := nextPriority (storeBeforeSet t) |})].
Proof.
  intros Hnone.
  rewrite sortStates_toggleColumnSort.
  unfold directionOf. rewrite Hnone. simpl orMinusOne.
  destruct (multiSort t); unfold setColumnSortStates.
  - rewrite Hnone. simpl. now apply set_absent.
  - reflexivity.
Qed.

(** C9. [toggleColumnSort] on a column whose [sortable] is [false] or
    absent, and which has no entry, adds an entry for it, ascending, as it
    would for any other column: the store does not look at [sortable]. *)
Theorem toggle_unsortable_column (t : DataTable Row) (column : Column) :
  sortable column = SortableFlag false \/ sortable column = SortableAbsent ->
  JsMap.get sameColumn column (sortStates t) = None ->
  sortStates (toggleColumnSort t column) =
  storeBeforeSet t ++
  [(column, {| direction := 1; priority := nextPriority (storeBeforeSet t) |})].
Proof.
  intros _ Hnone. now apply toggle_absent.
Qed.

Lemma perform_permutes_data (t : DataTable Row) (c : Call) :
  Permutation (data (perform t c)) (data t).
Proof.
  assert (Hset : forall (u : DataTable Row) column dir,
             Permutation (data (setColumnSort u column dir)) (data u)).
  { intros u column dir. rewrite data_setColumnSort.
    destruct (setColumnSortStates (sortStates u) column dir) as [s' []].
    - apply sort_permutation.
    - apply Permutation_refl. }
  destruct c as [column|column|column dir| |flag]; simpl.
  - unfold toggleColumnSort. eapply perm_trans; [apply Hset|].
    destruct (negb (multiSort t)); apply Permutation_refl.
  - apply Hset.
  - apply Hset.
  - apply Permutation_refl.
  - apply Permutation_refl.
Qed.

(** C10. Every call leaves the rows a permutation of what they were: no
    row is added, dropped or duplicated, and the number of rows is kept,
    whether the call sorts the rows or not. *)
Theorem data_permutation (t : DataTable Row) (calls : list Call) :
  Permutation (data (performAll t calls)) (data t) /\
  List.length (data (performAll t calls)) = List.length (data t).
Proof.
  assert (H : Permutation (data (performAll t calls)) (data t)).
  { revert t. induction calls as [|c calls IH]; intros t; simpl.
    - apply Permutation_refl.
    - eapply perm_trans; [apply IH | apply perform_permutes_data]. }
  split; [exact H | now apply Permutation_length].
Qed.

Lemma nextPriority_max (s : Store) :
  (forall state, In state (JsMap.values s) -> 0 <= priority state) ->
  (s = [] -> nextPriority s = 1) /\
  (s <> [] ->
   (exists state, In state (JsMap.values s) /\
                  nextPriority s = priority state + 1) /\
   (forall state, In state (JsMap.values s) ->
                  priority state < nextPriority s)).
Proof.
  intros Hpos. split; [now intros ->|].
  intros Hne. unfold nextPriority.
  destruct (reduce_max_bounds (JsMap.values s) 1) as (Hge & Hall & Hin).
  set (r := fold_left _ _ _) in *.
  split.
  - destruct Hin as [Hr|Hex]; [|exact Hex].
    destruct s as [|[k state] s]; [contradiction|].
    exists state. split; [now left|].
    specialize (Hall state (or_introl eq_refl)).
    specialize (Hpos state (or_introl eq_refl)). simpl in *. lia.
  - intros state Hs. specialize (Hall state Hs). lia.
Qed.

Lemma setColumnSortStates_insert (s : Store) (column : Column) (dir : Z) :
  dir <> 0 ->
  JsMap.get sameColumn column s = None ->
  setColumnSortStates s column dir =
  (s ++ [(column, {| direction := dir; priority := nextPriority s |})], true).
Proof.
  intros Hdir Hnone. unfold setColumnSortStates. rewrite Hnone.
  destruct (Z.eqb_spec dir 0); [contradiction|]. simpl.
  now rewrite set_absent.
Qed.

Lemma setColumnSortStates_clear (s : Store) (column : Column)
  (sortState : SortState) :
  NoDup (keyRefs s) ->
  JsMap.get sameColumn column s = Some sortState ->
  let r := setColumnSortStates s column 0 in
  JsMap.get sameColumn column (fst r) = None /\
  priorityOrder (fst r) =
    reindex 0 (priorityOrder (JsMap.delete sameColumn column s)) /\
  (snd r = true <-> fst r <> []).
Proof.
  intros Hnd G r. unfold r, setColumnSortStates. rewrite G. simpl.
  destruct (get_some_split _ _ _ G)
    as (l1 & k & l2 & Hs & Hk & Hl1 & _ & Hdel).
  assert (Hnd' : NoDup (keyRefs (JsMap.delete sameColumn column s))).
  { rewrite Hdel. subst s. rewrite keyRefs_app in *. simpl in Hnd.
    now apply NoDup_remove_1 in Hnd. }
  repeat split.
  - apply get_none_iff. intros Hin.
    apply (Permutation_in _ (keyRefs_renumber _ Hnd')) in Hin.
    rewrite Hdel in Hin. subst s. rewrite keyRefs_app in *. simpl in Hnd.
    apply NoDup_remove_2 in Hnd. rewrite Hk in Hnd. contradiction.
  - now apply priorityOrder_renumber.
  - intros H E. rewrite E in H. discriminate.
  - intros H. unfold JsMap.size.
    destruct (renumber (JsMap.delete sameColumn column s));
      [contradiction | reflexivity].
Qed.

(** C6. In multi-sort mode, from an empty store, sorting A then B gives
    the chain [A, B] with priorities 1 and 2; clearing A leaves the chain
    [B] with priority 1 and sorts the rows again, and clearing B after
    that empties the store without sorting. In general a new entry goes to
    the end of the store with priority 1 in an empty store and the largest
    priority plus 1 otherwise, and clearing a column removes its entry,
    numbers the remaining chain 1..N in its order, and asks for a sort
    exactly when entries remain. *)
Theorem multi_sort_priorities (t : DataTable Row) (colA colB : Column) :
  multiSort t = true ->
  sortStates t = [] ->
  ref colA <> ref colB ->
  let t2 := toggleColumnSort (toggleColumnSort t colA) colB in
  let t3 := clearColumnSort t2 colA in
  let t4 := clearColumnSort t3 colB in
  priorityOrder (sortStates t2) =
    [(colA, {| direction := 1; priority := 1 |});
     (colB, {| direction := 1; priority := 2 |})] /\
  priorityOrder (sortStates t3) =
    [(colB, {| direction := 1; priority := 1 |})] /\
  sortRuns t3 = S (sortRuns t2) /\
  sortStates t4 = [] /\ sortRuns t4 = sortRuns t3 /\ data t4 = data t3 /\
  (forall (s : Store) (column : Column) (dir : Z),
     dir <> 0 ->
     JsMap.get sameColumn column s = None ->
     (forall state, In state (JsMap.values s) -> 0 <= priority state) ->
     setColumnSortStates s column dir =
       (s ++ [(column, {| direction := dir; priority := nextPriority s |})],
        true) /\
     (s = [] -> nextPriority s = 1) /\
     (s <> [] ->
      (exists state, In state (JsMap.values s) /\
                     nextPriority s = priority state + 1) /\
      (forall state, In state (JsMap.values s) ->
                     priority state < nextPriority s))) /\
  (forall (s : Store) (column : Column) (sortState : SortState),
     NoDup (keyRefs s) ->
     JsMap.get sameColumn column s = Some sortState ->
     let r := setColumnSortStates s column 0 in
     JsMap.get sameColumn column (fst r) = None /\
     priorityOrder (fst r) =
       reindex 0 (priorityOrder (JsMap.delete sameColumn column s)) /\
     (snd r = true <-> fst r <> [])).
Proof.
  intros Hmulti Hempty Hab t2 t3 t4.
  assert (Eab : sameColumn colA colB = false) by now apply sameColumn_false.
  assert (Eba : sameColumn colB colA = false)
    by (apply sameColumn_false; congruence).
  assert (H1 : sortStates (toggleColumnSort t colA) =
               [(colA, {| direction := 1; priority := 1 |})]).
  { rewrite toggle_absent by now rewrite Hempty.
    rewrite Hmulti, Hempty. reflexivity. }
  assert (H2 : sortStates t2 =
               [(colA, {| direction := 1; priority := 1 |});
                (colB, {| direction := 1; priority := 2 |})]).
  { unfold t2. rewrite toggle_absent.
    - rewrite multiSort_toggleColumnSort, Hmulti, H1. reflexivity.
    - rewrite H1. simpl. now rewrite Eba. }
  assert (H3 : setColumnSortStates (sortStates t2) colA 0 =
               ([(colB, {| direction := 1; priority := 1 |})], true)).
  { rewrite H2. unfold setColumnSortStates. simpl JsMap.get.
    rewrite sameColumn_refl. simpl negb. cbv iota. simpl andb. cbv iota.
    simpl JsMap.delete. rewrite sameColumn_refl.
    unfold renumber. simpl. rewrite sameColumn_refl. reflexivity. }
  assert (S3 : sortStates t3 = [(colB, {| direction := 1; priority := 1 |})]).
  { unfold t3, clearColumnSort. now rewrite sortStates_setColumnSort, H3. }
  assert (H4 : setColumnSortStates (sortStates t3) colB 0 = ([], false)).
  { rewrite S3. unfold setColumnSortStates. simpl JsMap.get.
    rewrite sameColumn_refl. simpl. rewrite sameColumn_refl. reflexivity. }
  split; [now rewrite H2|].
  split; [now rewrite S3|].
  split; [unfold t3, clearColumnSort; now rewrite sortRuns_setColumnSort, H3|].
  split; [unfold t4, clearColumnSort; now rewrite sortStates_setColumnSort, H4|].
  split; [unfold t4, clearColumnSort; now rewrite sortRuns_setColumnSort, H4|].
  split; [unfold t4, clearColumnSort; now rewrite data_setColumnSort, H4|].
  split.
  - intros s column dir Hdir Hnone Hpos.
    split; [now apply setColumnSortStates_insert|].
    now apply nextPriority_max.
  - intros s column sortState Hnd G.
    now apply (setColumnSortStates_clear s column sortState).
Qed.

End Transitions.

(* ================================================================== *)
(** ** Pagination *)

Section Pagination.
Import Js Utility.
Context {Row : Type}.

(** [Math.ceil(a / b)] is the least integer [n] with [a <= n * b]. *)
Lemma ceilDiv_bounds (a b : Z) :
  0 < b -> (ceilDiv a b - 1) * b < a <= ceilDiv a b * b.
Proof.
  intros Hb. destruct b as [|p|p]; try lia.
  assert (E : ceilDiv a (Z.pos p) = - ((- a) / Z.pos p)).
  { unfold ceilDiv, Qceiling, Qfloor, Qdiv, Qinv, Qmult, Qopp, inject_Z.
    simpl Qnum. simpl Qden. cbv iota. simpl Qnum. simpl Qden.
    f_equal. f_equal; lia. }
  rewrite E.
  pose proof (Z.div_mod (- a) (Z.pos p)) as Hd.
  pose proof (Z.mod_pos_bound (- a) (Z.pos p)) as Hm.
  nia.
Qed.

Lemma slice_forward (rows : list Row) (start size : Z) :
  0 <= start -> 0 < size ->
  slice rows start (start + size) =
  firstn (Z.to_nat size) (skipn (Z.to_nat start) rows).
Proof.
  intros Hstart Hsize. unfold slice, clampIndex.
  destruct (Z.ltb_spec start 0); [lia|].
  destruct (Z.ltb_spec (start + size) 0); [lia|].
  set (len := Z.of_nat (List.length rows)).
  destruct (Z.le_gt_cases len start) as [Hout|Hin].
  - rewrite (Z.min_r start len) by lia.
    rewrite !skipn_all2 by lia. now rewrite !firstn_nil.
  - rewrite (Z.min_l start len) by lia.
    destruct (Z.le_gt_cases (start + size) len) as [Hfit|Hcut].
    + rewrite Z.min_l by lia. do 2 f_equal. lia.
    + rewrite Z.min_r by lia.
      rewrite !firstn_all2; [reflexivity | |]; rewrite length_skipn; lia.
Qed.

(** C8 (amended). [pageCount] is [ceil(dataLength / pageSize)] when
    [pageSize > 0] and 0 otherwise. For [pageSize > 0] and a page index
    that is not negative, [getDisplayData()] returns the rows
    [pageIndex*pageSize .. pageIndex*pageSize + pageSize) that the
    collection has, and no row when the page index is [pageCount] or more;
    for [pageSize = 0] it returns the full collection. *)
Theorem pagination_view (t : DataTable Row) :
  (0 < pageSize t ->
   (pageCount t - 1) * pageSize t < Z.of_nat (List.length (data t))
     <= pageCount t * pageSize t) /\
  (pageSize t <= 0 -> pageCount t = 0) /\
  (0 < pageSize t -> 0 <= pageIndex t ->
   getDisplayData t = referencePage (data t) (pageSize t) (pageIndex t)) /\
  (pageSize t = 0 -> getDisplayData t = data t) /\
  (0 < pageSize t -> pageCount t <= pageIndex t -> getDisplayData t = []).
Proof.
  assert (Hcount : 0 < pageSize t ->
            (pageCount t - 1) * pageSize t < Z.of_nat (List.length (data t))
              <= pageCount t * pageSize t).
  { intros Hs. unfold pageCount.
    destruct (Z.gtb_spec (pageSize t) 0); [|lia].
    now apply ceilDiv_bounds. }
  assert (Hpage : 0 < pageSize t -> 0 <= pageIndex t ->
            getDisplayData t
            = referencePage (data t) (pageSize t) (pageIndex t)).
  { intros Hs Hi. unfold getDisplayData, referencePage.
    destruct (Z.eqb_spec (pageSize t) 0); [lia|]. simpl.
    apply slice_forward; nia. }
  split; [exact Hcount|]. split.
  { intros Hs. unfold pageCount.
    destruct (Z.gtb_spec (pageSize t) 0); [lia | reflexivity]. }
  split; [exact Hpage|]. split.
  { intros Hs. unfold getDisplayData. now rewrite Hs. }
  intros Hs Hi.
  specialize (Hcount Hs).
  assert (H0 : 0 <= pageCount t) by nia.
  rewrite Hpage by lia. unfold referencePage.
  rewrite skipn_all2 by nia. apply firstn_nil.
Qed.

End Pagination.

(* ================================================================== *)
(** ** The properties on the concrete table *)

Section Instances.
Import Js Utility Sample.

(** The example of the specification: [{n:3}, {n:1}, {n:2}] toggled once is
    ascending, toggled twice descending. *)
Example toggle_sorts_three_rows :
  let t1 := toggleColumnSort (table threeRows false 0 0) (keyColumn 0) in
  getDisplayData t1 = [Some 1; Some 2; Some 3] /\
  getDisplayData (toggleColumnSort t1 (keyColumn 0))
  = [Some 3; Some 2; Some 1].
Proof. split; reflexivity. Defined.

(** C1, as stated, fails: with one absent and one defined key, the
    comparators put the absent one after the defined one, an ascending
    sort leaves the row without key last, and a descending sort puts it
    first, so the direction does change their relative order. *)
Lemma absent_first_counterexample :
  baseComparator ofNumber valueMatcher None (Some 1) = 1 /\
  columnResult (keyColumn 0) None (Some 1) = 1 /\
  (let t1 := toggleColumnSort (table [None; Some 1] false 0 0) (keyColumn 0) in
   directionOf t1 (keyColumn 0) = Some 1 /\
   data t1 = [Some 1; None] /\
   directionOf (toggleColumnSort t1 (keyColumn 0)) (keyColumn 0) = Some (-1) /\
   data (toggleColumnSort t1 (keyColumn 0)) = [None; Some 1]).
Proof. repeat split. Defined.

Lemma defined_before_absent_witness :
  (forall comparator, sortable (keyColumn 0) <> SortableConfig comparator) /\
  isDefined (render (keyColumn 0) (Some 1) {| rowIndex := -1 |}) = true /\
  isDefined (render (keyColumn 0) None {| rowIndex := -1 |}) = false /\
  rowComparator [(keyColumn 0, state (-1) 1)] (Some 1) None = 1 /\
  Js.sort (rowComparator [(keyColumn 0, state 1 1)]) [None; Some 1]
  = [Some 1; None].
Proof.
  split; [discriminate|]. split; [reflexivity|]. split; [reflexivity|].
  split.
  - apply (defined_before_absent (keyColumn 0) (state (-1) 1) [] (Some 1) None);
      [discriminate | reflexivity | reflexivity].
  - apply (defined_before_absent (keyColumn 0) (state 1 1) [] (Some 1) None);
      [discriminate | reflexivity | reflexivity | reflexivity].
Defined.

Lemma priorities_contiguous_witness :
  let t := table threeRows true 0 0 in
  let calls := [ToggleColumnSort (keyColumn 0); ToggleColumnSort (keyColumn 1);
                ToggleColumnSort (plainColumn 2); ClearColumnSort (keyColumn 0);
                SetColumnSort (keyColumn 0) (-1)] in
  sortStates t = [] /\
  Permutation (priorities (sortStates (performAll t calls)))
    (range1 (List.length (sortStates (performAll t calls)))) /\
  NoDup (priorities (sortStates (performAll t calls))).
Proof.
  intros t calls. split; [reflexivity|].
  apply (priorities_contiguous t calls). reflexivity.
Defined.

Lemma rowComparator_is_reference_witness :
  let t := withSortStates (table threeRows true 0 0) twoColumnStore in
  (forall e, In e (sortStates t) -> validDirection (snd e)) /\
  precedenceChainOf (sortStates t) twoColumnStore /\
  (forall rowA rowB,
     rowComparator (priorityOrder (sortStates t)) rowA rowB
     = referenceComparator twoColumnStore rowA rowB) /\
  data (sortData t) = Js.sort (referenceComparator twoColumnStore) (data t).
Proof.
  intros t.
  assert (Hdir : forall e, In e (sortStates t) -> validDirection (snd e)).
  { intros e He. simpl in He.
    destruct He as [He|[He|He]]; [subst e; right | subst e; left | contradiction];
      reflexivity. }
  assert (Hchain : precedenceChainOf (sortStates t) twoColumnStore).
  { split; [apply Permutation_refl|].
    repeat constructor. }
  split; [exact Hdir|]. split; [exact Hchain|].
  apply (rowComparator_is_reference t twoColumnStore Hdir Hchain).
Defined.

Lemma toggle_cycles_direction_witness :
  let t := withSortStates (table threeRows true 0 0) twoColumnStore in
  (forall state,
     JsMap.get sameColumn (keyColumn 1) (sortStates t) = Some state ->
     validDirection state) /\
  directionOf (toggleColumnSort t (keyColumn 1)) (keyColumn 1) = Some 1.
Proof.
  intros t.
  assert (H : forall state,
             JsMap.get sameColumn (keyColumn 1) (sortStates t) = Some state ->
             validDirection state).
  { intros state [= <-]. left. reflexivity. }
  split; [exact H|].
  apply (proj1 (toggle_cycles_direction t (keyColumn 1) H)).
Defined.

Lemma single_sort_toggle_witness :
  let t := withSortStates (table threeRows false 0 0)
             [(keyColumn 1, state 1 1)] in
  multiSort t = false /\
  (forall state,
     JsMap.get sameColumn (keyColumn 1) (sortStates t) = Some state ->
     validDirection state) /\
  sortStates (toggleColumnSort t (keyColumn 1)) = [(keyColumn 1, state (-1) 1)].
Proof.
  intros t.
  assert (H : forall state,
             JsMap.get sameColumn (keyColumn 1) (sortStates t) = Some state ->
             validDirection state).
  { intros state [= <-]. right. reflexivity. }
  split; [reflexivity|]. split; [exact H|].
  apply (single_sort_toggle t (keyColumn 1) eq_refl H).
Defined.

Lemma multi_sort_priorities_witness :
  let t := table threeRows true 0 0 in
  multiSort t = true /\ sortStates t = [] /\
  ref (keyColumn 0) <> ref (keyColumn 1) /\
  priorityOrder
    (sortStates
       (toggleColumnSort (toggleColumnSort t (keyColumn 0)) (keyColumn 1)))
  = [(keyColumn 0, state 1 1); (keyColumn 1, state 1 2)].
Proof.
  intros t.
  assert (Hne : ref (keyColumn 0) <> ref (keyColumn 1)) by discriminate.
  split; [reflexivity|]. split; [reflexivity|]. split; [exact Hne|].
  apply (proj1 (multi_sort_priorities t (keyColumn 0) (keyColumn 1)
                  eq_refl eq_refl Hne)).
Defined.

Lemma baseComparator_cases_witness :
  isDefined (ofNumber None) = false /\
  isDefined (ofNumber (Some 1)) = true /\
  baseComparatorTraced ofNumber valueMatcher None (Some 1) = (1, []) /\
  baseComparatorTraced ofNumber valueMatcher (Some 1) (Some 3)
  = (-2, [(VNumber 1, VNumber 3)]).
Proof.
  destruct (baseComparator_cases ofNumber valueMatcher None (Some 1))
    as (_ & _ & H1 & _).
  destruct (baseComparator_cases ofNumber valueMatcher (Some 1) (Some 3))
    as (_ & _ & _ & _ & H2 & _).
  split; [reflexivity|]. split; [reflexivity|]. split.
  - apply H1; reflexivity.
  - apply H2; reflexivity.
Defined.

(** C8, as stated, fails on a negative page index: with five rows and
    pages of two rows, page -2 is out of range (there are three pages) and
    yet [getDisplayData()] returns the rows of indices 1 and 2. *)
Lemma negative_page_index_counterexample :
  let t := table [Some 0; Some 1; Some 2; Some 3; Some 4] false 2 (-2) in
  pageCount t = 3 /\
  getDisplayData t = [Some 1; Some 2] /\
  getDisplayData t <> [].
Proof. repeat split. discriminate. Defined.

(** With a negative page size [pageCount] is 0, and [getDisplayData()]
    still slices: it drops the last row. *)
Example negative_page_size :
  let t := table [Some 0; Some 1; Some 2] false (-1) 0 in
  pageCount t = 0 /\ getDisplayData t = [Some 0; Some 1].
Proof. split; reflexivity. Defined.

Lemma pagination_view_witness :
  let t := table tenRows false 3 1 in
  0 < pageSize t /\ 0 <= pageIndex t /\
  pageCount t = 4 /\
  getDisplayData t = [Some 3; Some 4; Some 5] /\
  getDisplayData t = referencePage (data t) (pageSize t) (pageIndex t).
Proof.
  intros t.
  destruct (pagination_view t) as (_ & _ & H & _).
  split; [reflexivity|]. split; [discriminate|].
  split; [reflexivity|]. split; [reflexivity|].
  apply H; [reflexivity | discriminate].
Defined.

Lemma toggle_unsortable_column_witness :
  let t := table threeRows false 0 0 in
  sortable (plainColumn 2) = SortableAbsent /\
  JsMap.get sameColumn (plainColumn 2) (sortStates t) = None /\
  sortStates (toggleColumnSort t (plainColumn 2))
  = [(plainColumn 2, state 1 1)].
Proof.
  intros t. split; [reflexivity|]. split; [reflexivity|].
  apply (toggle_unsortable_column t (plainColumn 2));
    [right; reflexivity | reflexivity].
Defined.

End Instances.

(* ================================================================== *)
(** ** Sorting with a consistent comparator *)

Section ConsistentSort.
Context {A : Type}.
Variable cmp : A -> A -> Z.

Local Abbreviation inOrder := (fun a b : A => cmp a b <= 0).

Lemma sort_Forall (P : A -> Prop) (l : list A) :
  Forall P l -> Forall P (Js.sort cmp l).
Proof.
  intros H. eapply Permutation_Forall; [|exact H].
  apply Permutation_sym, sort_permutation.
Qed.

Lemma insert_sorted (D : A -> Prop) (x : A) (l : list A) :
  consistentOn D cmp -> D x -> Forall D l ->
  StronglySorted inOrder l ->
  StronglySorted inOrder (Js.insert cmp x l).
Proof.
  intros [Hanti Htrans] Hx Hl Hs.
  induction Hs as [|y l Hs IH Hy]; simpl.
  - repeat constructor.
  - inversion Hl as [|? ? Dy Dl]; subst.
    destruct (Z.leb_spec (cmp x y) 0) as [Hle|Hgt].
    + constructor; [now constructor|].
      constructor; [exact Hle|].
      rewrite Forall_forall in *. intros z Hz.
      apply (Htrans x y z); auto.
    + constructor; [now apply IH|].
      eapply Permutation_Forall;
        [apply Permutation_sym, insert_permutation|].
      constructor; [|exact Hy].
      apply (Hanti x y Hx Dy) in Hgt. lia.
Qed.

Lemma sort_sorted (D : A -> Prop) (l : list A) :
  consistentOn D cmp -> Forall D l ->
  StronglySorted inOrder (Js.sort cmp l).
Proof.
  intros Hc Hl. induction Hl as [|x l Hx Hl IH]; simpl.
  - constructor.
  - apply (insert_sorted D); auto. now apply sort_Forall.
Qed.

(** A list that is in order already is returned as it is. *)
Lemma sort_fixed (l : list A) :
  StronglySorted inOrder l -> Js.sort cmp l = l.
Proof.
  induction 1 as [|x l Hs IH Hx]; simpl; [reflexivity|].
  rewrite IH. destruct l as [|y l]; simpl; [reflexivity|].
  inversion Hx as [|? ? Hxy _]; subst.
  destruct (Z.leb_spec (cmp x y) 0); [reflexivity | lia].
Qed.



End ConsistentSort.

Section ConsistentCompose.
Context {A : Type}.
Variable D : A -> Prop.

Lemma consistentOn_zero : consistentOn D (fun _ _ : A => 0).
Proof. split; intros; lia. Qed.

(** One step of the loop of [sortData] keeps consistency: a consistent
    column result, inverted or not, with a consistent tie-break. *)
Lemma consistentOn_step (f g : A -> A -> Z) (d : Z) :
  consistentOn D f -> consistentOn D g -> d = -1 \/ d = 1 ->
  consistentOn D
    (fun a b => if negb (f a b =? 0) then f a b * d else g a b).
Proof.
  intros [Fa Ft] [Ga Gt] Hd. split.
  - intros a b Da Db.
    pose proof (Fa a b Da Db). pose proof (Fa b a Db Da).
    pose proof (Ga a b Da Db).
    destruct (Z.eqb_spec (f a b) 0), (Z.eqb_spec (f b a) 0);
      cbn [negb]; destruct Hd; subst d; lia.
  - intros a b c Da Db Dc.
    pose proof (Fa a b Da Db). pose proof (Fa b a Db Da).
    pose proof (Fa b c Db Dc). pose proof (Fa c b Dc Db).
    pose proof (Fa a c Da Dc). pose proof (Fa c a Dc Da).
    pose proof (Ft a b c Da Db Dc). pose proof (Ft a c b Da Dc Db).
    pose proof (Ft b a c Db Da Dc). pose proof (Ft b c a Db Dc Da).
    pose proof (Ft c a b Dc Da Db). pose proof (Ft c b a Dc Db Da).
    pose proof (Gt a b c Da Db Dc).
    destruct (Z.eqb_spec (f a b) 0), (Z.eqb_spec (f b c) 0),
      (Z.eqb_spec (f a c) 0);
      cbn [negb]; destruct Hd; subst d; lia.
Qed.

End ConsistentCompose.

(* ================================================================== *)
(** ** When the comparators are consistent *)

Section ConsistentComparators.
Import Js Utility.

Lemma StronglySorted_impl {A : Type} (R R' : A -> A -> Prop) (l : list A) :
  (forall a b, R a b -> R' a b) ->
  StronglySorted R l -> StronglySorted R' l.
Proof.
  intros H. induction 1 as [|x l Hs IH Hx]; constructor; auto.
  eapply Forall_impl; [|exact Hx]. auto.
Qed.

(** X1. [baseComparator(selector, matcher)] is a consistent comparator
    whenever [matcher] is one on the defined values the selector yields,
    on which [===] is equality: absent values then form one class that
    comes after every defined value. *)
Theorem baseComparator_consistent {S : Type} (D : S -> Prop)
  (V : Value -> Prop) (selector : S -> Value) (matcher : Comparator Value) :
  (forall s, D s -> isDefined (selector s) = true -> V (selector s)) ->
  (forall a b, V a -> V b -> strictEq a b = true -> a = b) ->
  consistentOn V matcher ->
  consistentOn D (baseComparator selector matcher).
Proof.
  intros Hsel Heq [Ma Mt].
  assert (Hrefl : forall a, V a -> matcher a a = 0).
  { intros a Va. pose proof (Ma a a Va Va). lia. }
  assert (Hval : forall x y, D x -> D y ->
            baseComparator selector matcher x y =
            match isDefined (selector x), isDefined (selector y) with
            | true, true => matcher (selector x) (selector y)
            | true, false => -1
            | false, true => 1
            | false, false => 0
            end).
  { intros x y Dx Dy. rewrite baseComparator_reference.
    unfold referenceBaseComparator.
    destruct (isDefined (selector x)) eqn:Ex,
             (isDefined (selector y)) eqn:Ey; try reflexivity.
    destruct (strictEq (selector x) (selector y)) eqn:E; [|reflexivity].
    apply Heq in E; auto. rewrite E. symmetry. apply Hrefl. auto. }
  split.
  - intros x y Dx Dy. rewrite !Hval by assumption.
    pose proof (Hsel x Dx) as Vx. pose proof (Hsel y Dy) as Vy.
    destruct (isDefined (selector x)), (isDefined (selector y)); try lia.
    apply Ma; auto.
  - intros x y z Dx Dy Dz. rewrite !Hval by assumption.
    pose proof (Hsel x Dx) as Vx. pose proof (Hsel y Dy) as Vy.
    pose proof (Hsel z Dz) as Vz.
    destruct (isDefined (selector x)), (isDefined (selector y)),
      (isDefined (selector z)); try lia.
    apply Mt; auto.
Qed.


Lemma strictEq_numbers (a b : Value) :
  (exists n, a = VNumber n) -> (exists n, b = VNumber n) ->
  strictEq a b = true -> a = b.
Proof.
  intros [x ->] [y ->]. simpl. intros H. apply Z.eqb_eq in H. now subst.
Qed.



(** X3. [textComparator(selector, ...)] is a consistent comparator
    whenever the [localeCompare] of the host is one on strings. *)
Theorem textComparator_consistent {T : Type}
  (localeCompare : string -> string -> Z) (selector : T -> option string) :
  consistentOn (fun _ => True) localeCompare ->
  consistentOn (fun _ => True) (textComparator localeCompare selector).
Proof.
  intros [La Lt]. unfold textComparator.
  apply (baseComparator_consistent _ (fun v => exists s, v = VString s)).
  - intros s _ Hs. destruct (selector s); simpl in *; [eauto | discriminate].
  - intros a b [x ->] [y ->]. simpl. intros H.
    apply String.eqb_eq in H. now subst.
  - split.
    + intros a b [x ->] [y ->]. now apply La.
    + intros a b c [x ->] [y ->] [z ->]. now apply Lt.
Qed.

End ConsistentComparators.

(* ================================================================== *)
(** ** What [sortData] achieves *)

Section TextOrder.
Import Js Utility.

Lemma string_compare_refl (s : string) : String.compare s s = Eq.
Proof.
  pose proof (String.compare_antisym s s) as H.
  destruct (String.compare s s); simpl in H; try discriminate; reflexivity.
Qed.

Lemma string_compare_lt_trans (a b c : string) :
  String.compare a b = Lt -> String.compare b c = Lt ->
  String.compare a c = Lt.
Proof.
  revert b c. induction a as [|x a IH]; intros [|y b] [|z c]; simpl;
    try discriminate; auto.
  destruct (Ascii.compare x y) eqn:Exy; try discriminate;
    destruct (Ascii.compare y z) eqn:Eyz; try discriminate.
  - apply Ascii.compare_eq_iff in Exy, Eyz. subst.
    unfold Ascii.compare. rewrite N.compare_refl. apply IH.
  - apply Ascii.compare_eq_iff in Exy. subst. now rewrite Eyz.
  - apply Ascii.compare_eq_iff in Eyz. subst. now rewrite Exy.
  - unfold Ascii.compare in *. rewrite N.compare_lt_iff in Exy, Eyz.
    assert (H : (N_of_ascii x < N_of_ascii z)%N) by lia.
    apply N.compare_lt_iff in H. now rewrite H.
Qed.

Lemma text_matcher (s1 s2 : string) :
  (if String.eqb s1 s2 then 0
   else if String.ltb s1 s2 then -1 else 1) =
  match String.compare s1 s2 with
  | Eq => 0
  | Lt => -1
  | Gt => 1
  end.
Proof.
  unfold String.ltb. destruct (String.eqb_spec s1 s2) as [->|Hne].
  - now rewrite string_compare_refl.
  - destruct (String.compare s1 s2) eqn:C; try reflexivity.
    apply String.compare_eq_iff in C. contradiction.
Qed.

Lemma valueMatcher_strings (x y : string) :
  valueMatcher (VString x) (VString y) =
  match String.compare x y with
  | Eq => 0
  | Lt => -1
  | Gt => 1
  end.
Proof. unfold valueMatcher. simpl. apply text_matcher. Qed.

Lemma valueMatcher_consistent_strings :
  consistentOn (fun v => exists s, v = VString s) valueMatcher.
Proof.
  split.
  - intros a b [x ->] [y ->]. rewrite !valueMatcher_strings.
    rewrite (String.compare_antisym y x).
    destruct (String.compare x y); simpl; lia.
  - intros a b c [x ->] [y ->] [z ->]. rewrite !valueMatcher_strings.
    destruct (String.compare x y) eqn:Exy; try lia;
      destruct (String.compare y z) eqn:Eyz; try lia; intros _ _.
    + apply String.compare_eq_iff in Exy, Eyz. subst.
      rewrite string_compare_refl. lia.
    + apply String.compare_eq_iff in Exy. subst. rewrite Eyz. lia.
    + apply String.compare_eq_iff in Eyz. subst. rewrite Exy. lia.
    + rewrite (string_compare_lt_trans x y z Exy Eyz). lia.
Qed.

Lemma valueMatcher_consistent_numbers :
  consistentOn (fun v => exists n, v = VNumber n) valueMatcher.
Proof.
  split.
  - intros a b [x ->] [y ->]. simpl. lia.
  - intros a b c [x ->] [y ->] [z ->]. simpl. lia.
Qed.

(** X4. The matcher of the derived comparator is not transitive on
    cells that mix numbers and strings: 2 comes before 10 as a number, 10
    before ["1a"] as text, and ["1a"] before 2 as text. *)
Theorem valueMatcher_not_transitive :
  ~ (forall a b c : Value,
       valueMatcher a b <= 0 -> valueMatcher b c <= 0 ->
       valueMatcher a c <= 0).
Proof.
  intros H.
  specialize (H (VString "1a") (VNumber 2) (VNumber 10)).
  assert (E1 : valueMatcher (VString "1a") (VNumber 2) = -1) by reflexivity.
  assert (E2 : valueMatcher (VNumber 2) (VNumber 10) = -8) by reflexivity.
  assert (E3 : valueMatcher (VString "1a") (VNumber 10) = 1) by reflexivity.
  rewrite E1, E2, E3 in H. lia.
Qed.

End TextOrder.

Section SortedTable.
Import Js Utility.
Context {Row : Type}.

Local Abbreviation Column := (ColumnDefinition Row).
Local Abbreviation Entry := (ColumnDefinition Row * SortState)%type.
Local Abbreviation Store := (SortStates Row).

Lemma StronglySorted_impl_on (D : Row -> Prop) (R R' : Row -> Row -> Prop)
  (l : list Row) :
  (forall a b, D a -> D b -> R a b -> R' a b) ->
  Forall D l -> StronglySorted R l -> StronglySorted R' l.
Proof.
  intros H Hl Hs. induction Hs as [|x l Hs IH Hx]; [constructor|].
  inversion Hl as [|? ? Dx Dl]; subst.
  constructor; [now apply IH|].
  rewrite Forall_forall in *. intros y Hy. apply H; auto.
Qed.

Lemma rowComparator_consistent (D : Row -> Prop) (chain : list Entry) :
  Forall (fun e : Entry =>
            consistentOn D (columnResult (fst e)) /\ validDirection (snd e))
    chain ->
  consistentOn D (rowComparator chain).
Proof.
  induction 1 as [|[column state] chain [Hc Hd] _ IH].
  - apply consistentOn_zero.
  - destruct (consistentOn_step D (columnResult column) (rowComparator chain)
                (direction state) Hc IH Hd) as [Ha Ht].
    split.
    + intros a b Da Db. cbn [rowComparator]. now apply Ha.
    + intros a b c Da Db Dc. cbn [rowComparator]. now apply Ht.
Qed.

Lemma priorityOrder_consistent (D : Row -> Prop) (s : Store) :
  (forall e, In e s ->
     consistentOn D (columnResult (fst e)) /\ validDirection (snd e)) ->
  consistentOn D (rowComparator (priorityOrder s)).
Proof.
  intros H. apply rowComparator_consistent, Forall_forall.
  intros e He. apply H.
  eapply Permutation_in; [apply priorityOrder_permutation | exact He].
Qed.

Lemma sortData_in_order (t : DataTable Row) (D : Row -> Prop) :
  Forall D (data t) ->
  (forall e, In e (sortStates t) ->
     consistentOn D (columnResult (fst e)) /\ validDirection (snd e)) ->
  StronglySorted
    (fun a b => rowComparator (priorityOrder (sortStates t)) a b <= 0)
    (data (sortData t)).
Proof.
  intros Hd Hc. unfold sortData. cbn [data].
  apply (sort_sorted _ D); [|exact Hd].
  now apply priorityOrder_consistent.
Qed.

(** X5. When every sorted column compares the rows of the table
    consistently, [sortData] leaves the rows in order: no row is followed,
    however far behind, by a row that the composed comparator puts before
    it. *)
Theorem sortData_sorts (t : DataTable Row) (D : Row -> Prop) :
  Forall D (data t) ->
  (forall e, In e (sortStates t) ->
     consistentOn D (columnResult (fst e)) /\ validDirection (snd e)) ->
  StronglySorted
    (fun a b => rowComparator (priorityOrder (sortStates t)) a b <= 0)
    (data (sortData t)).
Proof. apply sortData_in_order. Qed.

(** X6. When every sorted column compares the rows of the table
    consistently, [sortData] orders the rows by the column of priority 1
    first: along the sorted rows its result, multiplied by its direction,
    never puts a later row before an earlier one. *)
Theorem sortData_sorts_by_first_column (t : DataTable Row) (D : Row -> Prop)
  (column : Column) (state : SortState) (rest : list Entry) :
  Forall D (data t) ->
  (forall e, In e (sortStates t) ->
     consistentOn D (columnResult (fst e)) /\ validDirection (snd e)) ->
  priorityOrder (sortStates t) = (column, state) :: rest ->
  StronglySorted
    (fun a b => columnResult column a b * direction state <= 0)
    (data (sortData t)).
Proof.
  intros Hd Hc Hchain.
  eapply StronglySorted_impl; [|apply (sortData_in_order t D Hd Hc)].
  intros a b. rewrite Hchain. cbn [rowComparator].
  destruct (Z.eqb_spec (columnResult column a b) 0) as [E|E]; cbn [negb].
  - intros _. rewrite E. lia.
  - auto.
Qed.


(** X8. Sorting again changes nothing: when the sorted columns compare
    consistently, a second [sortData] returns the rows as the first left
    them. *)
Theorem sortData_idempotent (t : DataTable Row) (D : Row -> Prop) :
  Forall D (data t) ->
  (forall e, In e (sortStates t) ->
     consistentOn D (columnResult (fst e)) /\ validDirection (snd e)) ->
  data (sortData (sortData t)) = data (sortData t).
Proof.
  intros Hd Hc. unfold sortData at 1. cbn [data sortStates].
  apply sort_fixed. now apply (sortData_in_order t D).
Qed.

Lemma consistentOn_ext (D : Row -> Prop) (f g : Row -> Row -> Z) :
  (forall a b, f a b = g a b) -> consistentOn D f -> consistentOn D g.
Proof.
  intros E [Ha Ht]. split.
  - intros a b. rewrite <- !E. apply Ha.
  - intros a b c. rewrite <- !E. apply Ht.
Qed.

Lemma columnResult_derived (column : Column) (rowA rowB : Row) :
  (forall comparator, sortable column <> SortableConfig comparator) ->
  columnResult column rowA rowB =
  baseComparator (sortCell column) valueMatcher rowA rowB.
Proof.
  intros H. unfold columnResult.
  destruct (sortable column) as [| |comparator] eqn:E; try reflexivity.
  exfalso. now apply (H comparator).
Qed.

Lemma numberColumn_consistent (D : Row -> Prop) (column : Column) :
  numberColumn D column -> consistentOn D (columnResult column).
Proof.
  intros [Hs Hcells].
  apply (consistentOn_ext D (baseComparator (sortCell column) valueMatcher)).
  - intros a b. symmetry. now apply columnResult_derived.
  - apply (baseComparator_consistent D (fun v => exists n, v = VNumber n)).
    + intros s Ds Hdef. destruct (Hcells s Ds) as [H|H]; [congruence | exact H].
    + apply strictEq_numbers.
    + apply valueMatcher_consistent_numbers.
Qed.

Lemma textColumn_consistent (D : Row -> Prop) (column : Column) :
  textColumn D column -> consistentOn D (columnResult column).
Proof.
  intros [Hs Hcells].
  apply (consistentOn_ext D (baseComparator (sortCell column) valueMatcher)).
  - intros a b. symmetry. now apply columnResult_derived.
  - apply (baseComparator_consistent D (fun v => exists s, v = VString s)).
    + intros s Ds Hdef. destruct (Hcells s Ds) as [H|H]; [congruence | exact H].
    + intros a b [x ->] [y ->]. simpl. intros H.
      apply String.eqb_eq in H. now subst.
    + apply valueMatcher_consistent_strings.
Qed.


Lemma textColumn_order (D : Row -> Prop) (column : Column) (a b : Row) :
  textColumn D column -> D a -> D b ->
  (columnResult column a b <= 0 <->
   textsThenAbsent (cellText column a) (cellText column b)).
Proof.
  intros [Hs Hcells] Da Db.
  rewrite columnResult_derived by exact Hs.
  rewrite baseComparator_reference.
  unfold referenceBaseComparator, cellText, textsThenAbsent.
  destruct (Hcells a Da) as [Ha|[x Ha]], (Hcells b Db) as [Hb|[y Hb]].
  - rewrite Ha, Hb.
    destruct (sortCell column a), (sortCell column b);
      try discriminate; lia.
  - rewrite Ha, Hb. simpl.
    destruct (sortCell column a); try discriminate; lia.
  - rewrite Ha, Hb. simpl.
    destruct (sortCell column b); try discriminate; lia.
  - rewrite Ha, Hb. cbn [isDefined strictEq].
    destruct (String.eqb_spec x y) as [->|Hne].
    + rewrite string_compare_refl. split; [discriminate | lia].
    + rewrite valueMatcher_strings.
      destruct (String.compare x y); split; try lia; try discriminate;
        intros H; exfalso; now apply H.
Qed.

End SortedTable.

Section ToggleSorts.
Import Js Utility.
Context {Row : Type}.

Local Abbreviation Column := (ColumnDefinition Row).
Local Abbreviation Entry := (ColumnDefinition Row * SortState)%type.

Lemma data_toggleColumnSort (t : DataTable Row) (column : Column) :
  data (toggleColumnSort t column) =
  let (s', shouldSort) :=
    setColumnSortStates (if multiSort t then sortStates t else [])
      column (orMinusOne (directionOf t column) * -1) in
  if shouldSort then Js.sort (rowComparator (priorityOrder s')) (data t)
  else data t.
Proof.
  unfold toggleColumnSort. rewrite data_setColumnSort.
  unfold directionOf, orMinusOne.
  destruct (multiSort t); simpl;
    destruct (JsMap.get sameColumn column (sortStates t)); reflexivity.
Qed.

(** In single-sort mode a toggle leaves one entry and sorts by it. *)
Lemma single_toggle (t : DataTable Row) (column : Column) :
  multiSort t = false ->
  (forall state, JsMap.get sameColumn column (sortStates t) = Some state ->
                 validDirection state) ->
  let d := orMinusOne (directionOf t column) * -1 in
  (d = 1 \/ d = -1) /\
  (d = 1 <-> directionOf t column <> Some 1) /\
  sortStates (toggleColumnSort t column) =
    [(column, {| direction := d; priority := 1 |})] /\
  data (toggleColumnSort t column) =
    Js.sort (rowComparator [(column, {| direction := d; priority := 1 |})])
      (data t).
Proof.
  intros Hsingle Hvalid d.
  assert (Hd : (d = 1 \/ d = -1) /\ (d = 1 <-> directionOf t column <> Some 1)).
  { unfold d, directionOf.
    destruct (JsMap.get sameColumn column (sortStates t)) as [state|]; simpl.
    - destruct (Hvalid state eq_refl) as [H|H]; rewrite H.
      + split; [lia|]. split; [intros _; discriminate | lia].
      + split; [lia|]. split; [lia | intros E; now contradiction E].
    - split; [lia|]. split; [discriminate | lia]. }
  destruct Hd as [Hd Hiff]. split; [exact Hd|]. split; [exact Hiff|].
  assert (Hnz : (d =? 0) = false) by (apply Z.eqb_neq; lia).
  split.
  - rewrite sortStates_toggleColumnSort, Hsingle. fold d.
    unfold setColumnSortStates. simpl JsMap.get. cbv iota.
    now rewrite Hnz.
  - rewrite data_toggleColumnSort, Hsingle. fold d.
    unfold setColumnSortStates. simpl JsMap.get. cbv iota.
    now rewrite Hnz.
Qed.

Lemma single_toggle_sorted (t : DataTable Row) (D : Row -> Prop)
  (column : Column) :
  multiSort t = false ->
  consistentOn D (columnResult column) ->
  Forall D (data t) ->
  (forall state, JsMap.get sameColumn column (sortStates t) = Some state ->
                 validDirection state) ->
  let t' := toggleColumnSort t column in
  Forall D (data t') /\
  (directionOf t column <> Some 1 ->
   StronglySorted (fun a b => columnResult column a b <= 0) (data t')) /\
  (directionOf t column = Some 1 ->
   StronglySorted (fun a b => columnResult column b a <= 0) (data t')).
Proof.
  intros Hsingle Hc Hd Hvalid t'.
  destruct (single_toggle t column Hsingle Hvalid) as (Hdir & Hiff & _ & Hdata).
  set (d := orMinusOne (directionOf t column) * -1) in *.
  assert (HD : Forall D (data t')).
  { unfold t'. rewrite Hdata. now apply sort_Forall. }
  assert (Hsorted : StronglySorted
            (fun a b => rowComparator
                          [(column, {| direction := d; priority := 1 |})] a b
                        <= 0) (data t')).
  { unfold t'. rewrite Hdata. apply (sort_sorted _ D); [|exact Hd].
    apply rowComparator_consistent. constructor; [|constructor].
    split; [exact Hc|]. unfold validDirection. simpl. lia. }
  split; [exact HD|]. destruct Hc as [Ha _]. split.
  - intros Hne. apply Hiff in Hne.
    eapply (StronglySorted_impl_on D); [|exact HD|exact Hsorted].
    intros a b Da Db. cbn [rowComparator direction]. rewrite Hne.
    destruct (Z.eqb_spec (columnResult column a b) 0); cbn [negb]; lia.
  - intros He. assert (Hm : d = -1) by (destruct Hdir; tauto).
    eapply (StronglySorted_impl_on D); [|exact HD|exact Hsorted].
    intros a b Da Db. cbn [rowComparator direction]. rewrite Hm.
    pose proof (Ha a b Da Db). pose proof (Ha b a Db Da).
    destruct (Z.eqb_spec (columnResult column a b) 0); cbn [negb]; lia.
Qed.


(** X10. In single-sort mode, toggling a column whose cells are strings
    or absent sorts the rows by it in the order of the character codes:
    ascending with the rows without text last, unless the column was
    sorted ascending already, and then descending with the rows without
    text first. *)
Theorem toggle_sorts_text_column (t : DataTable Row) (D : Row -> Prop)
  (column : Column) :
  multiSort t = false ->
  textColumn D column ->
  Forall D (data t) ->
  (forall state, JsMap.get sameColumn column (sortStates t) = Some state ->
                 validDirection state) ->
  let t' := toggleColumnSort t column in
  (directionOf t column <> Some 1 ->
   StronglySorted
     (fun a b => textsThenAbsent (cellText column a) (cellText column b))
     (data t')) /\
  (directionOf t column = Some 1 ->
   StronglySorted
     (fun a b => textsThenAbsent (cellText column b) (cellText column a))
     (data t')).
Proof.
  intros Hsingle Hcol Hd Hvalid t'.
  destruct (single_toggle_sorted t D column Hsingle
              (textColumn_consistent D column Hcol) Hd Hvalid)
    as (HD & Hasc & Hdesc).
  split; intros H.
  - eapply (StronglySorted_impl_on D); [|exact HD|exact (Hasc H)].
    intros a b Da Db. apply (textColumn_order D column a b Hcol Da Db).
  - eapply (StronglySorted_impl_on D); [|exact HD|exact (Hdesc H)].
    intros a b Da Db. apply (textColumn_order D column b a Hcol Db Da).
Qed.

End ToggleSorts.

(* ================================================================== *)
(** ** More on the sort-state store *)

Section StoreProperties.
Import Js Utility.
Context {Row : Type}.

Local Abbreviation Column := (ColumnDefinition Row).
Local Abbreviation Entry := (ColumnDefinition Row * SortState)%type.
Local Abbreviation Store := (SortStates Row).
Local Abbreviation validEntry := (fun e : Entry => validDirection (snd e)).

Lemma get_set_other (c c' : Column) (v : SortState) (s : Store) :
  ref c <> ref c' ->
  JsMap.get sameColumn c (JsMap.set sameColumn c' v s)
  = JsMap.get sameColumn c s.
Proof.
  intros Hne. induction s as [|[k w] s IH]; simpl.
  - apply sameColumn_false in Hne. now rewrite Hne.
  - destruct (sameColumn c' k) eqn:E; simpl.
    + apply sameColumn_true in E.
      assert (Ek : sameColumn c k = false)
        by (apply sameColumn_false; congruence).
      now rewrite Ek.
    + destruct (sameColumn c k); [reflexivity | exact IH].
Qed.

Lemma get_some_in (c : Column) (s : Store) (v : SortState) :
  JsMap.get sameColumn c s = Some v -> exists k, In (k, v) s.
Proof.
  intros G. destruct (get_some_split _ _ _ G) as (l1 & k & l2 & -> & _).
  exists k. apply in_or_app. right. now left.
Qed.

Lemma reindex_valid (i : Z) (chain : list Entry) :
  Forall validEntry chain -> Forall validEntry (reindex i chain).
Proof.
  intros H. revert i. induction H as [|[k v] chain Hv _ IH]; intros i; simpl.
  - constructor.
  - constructor; [exact Hv | apply IH].
Qed.

Lemma setColumnSortStates_valid (s : Store) (column : Column) (dir : Z) :
  dir = -1 \/ dir = 0 \/ dir = 1 ->
  NoDup (keyRefs s) ->
  Forall validEntry s ->
  Forall validEntry (fst (setColumnSortStates s column dir)).
Proof.
  intros Hdir Hnd Hv. unfold setColumnSortStates.
  destruct (JsMap.get sameColumn column s) as [sortState|] eqn:G.
  - destruct (get_some_split _ _ _ G)
      as (l1 & k & l2 & Hs & Hk & Hl1 & Hset & Hdel).
    destruct (Z.eqb_spec dir 0) as [E0|E0]; cbn [negb andb].
    + cbn [fst].
      assert (Hnd' : NoDup (keyRefs (JsMap.delete sameColumn column s))).
      { rewrite Hdel. subst s. rewrite keyRefs_app in *. simpl in Hnd.
        now apply NoDup_remove_1 in Hnd. }
      eapply Permutation_Forall;
        [apply Permutation_sym, renumber_permutation, Hnd'|].
      apply reindex_valid.
      eapply Permutation_Forall;
        [apply Permutation_sym, priorityOrder_permutation|].
      rewrite Hdel. subst s. apply Forall_app in Hv. destruct Hv as [H1 H2].
      inversion H2; subst. now apply Forall_app.
    + destruct (negb (direction sortState =? dir)); cbn [fst]; [|exact Hv].
      rewrite Hset. subst s. apply Forall_app in Hv. destruct Hv as [H1 H2].
      inversion H2; subst. apply Forall_app. split; [exact H1|].
      constructor; [|assumption]. unfold validDirection. simpl. lia.
  - destruct (Z.eqb_spec dir 0) as [E0|E0]; cbn [negb fst]; [exact Hv|].
    rewrite set_absent by exact G. apply Forall_app. split; [exact Hv|].
    constructor; [|constructor]. unfold validDirection. simpl. lia.
Qed.

Lemma perform_valid (t : DataTable Row) (c : Call) :
  typedCall c ->
  storeInvariant (sortStates t) ->
  Forall validEntry (sortStates t) ->
  Forall validEntry (sortStates (perform t c)).
Proof.
  intros Htyped [Hnd _] Hv.
  destruct c as [column|column|column dir| |flag]; simpl.
  - rewrite sortStates_toggleColumnSort.
    apply setColumnSortStates_valid.
    + unfold directionOf.
      destruct (JsMap.get sameColumn column (sortStates t)) as [state|] eqn:G;
        simpl; [|lia].
      destruct (get_some_in _ _ _ G) as [k Hin].
      rewrite Forall_forall in Hv. specialize (Hv _ Hin).
      unfold validDirection in Hv. simpl in Hv. lia.
    + destruct (multiSort t); [exact Hnd | constructor].
    + destruct (multiSort t); [exact Hv | constructor].
  - unfold clearColumnSort. rewrite sortStates_setColumnSort.
    apply setColumnSortStates_valid; auto.
  - rewrite sortStates_setColumnSort.
    apply setColumnSortStates_valid; auto.
  - constructor.
  - exact Hv.
Qed.

(** X11. From an empty store, and with [setColumnSort] given only -1, 0
    or 1, no sequence of calls ever leaves two entries for one column or an
    entry whose direction is not -1 or 1. *)
Theorem store_well_formed (t : DataTable Row) (calls : list Call) :
  sortStates t = [] ->
  Forall typedCall calls ->
  NoDup (keyRefs (sortStates (performAll t calls))) /\
  Forall validEntry (sortStates (performAll t calls)).
Proof.
  intros Hempty Htyped.
  assert (H : storeInvariant (sortStates (performAll t calls)) /\
              Forall validEntry (sortStates (performAll t calls))).
  { assert (H0 : storeInvariant (sortStates t) /\
                 Forall validEntry (sortStates t))
      by (rewrite Hempty; split; [apply storeInvariant_empty | constructor]).
    clear Hempty. revert t H0.
    induction Htyped as [|c calls Hc _ IH]; intros t [Hi Hv]; simpl.
    - now split.
    - apply IH. split.
      + now apply perform_invariant.
      + now apply perform_valid. }
  destruct H as [[Hnd _] Hv]. now split.
Qed.



End StoreProperties.

Section StoreTransitions.
Import Js Utility.
Context {Row : Type}.

Local Abbreviation Column := (ColumnDefinition Row).
Local Abbreviation Entry := (ColumnDefinition Row * SortState)%type.
Local Abbreviation Store := (SortStates Row).

Lemma setColumnSortStates_again (s : Store) (column : Column) (dir : Z) :
  NoDup (keyRefs s) ->
  let s1 := fst (setColumnSortStates s column dir) in
  setColumnSortStates s1 column dir = (s1, false).
Proof.
  intros Hnd s1.
  destruct (Z.eqb_spec dir 0) as [E0|E0].
  - subst dir.
    destruct (JsMap.get sameColumn column s) as [state|] eqn:G.
    + destruct (setColumnSortStates_clear s column state Hnd G) as (Hnone & _).
      fold s1 in Hnone. unfold setColumnSortStates at 1. now rewrite Hnone.
    + assert (E : s1 = s)
        by (unfold s1, setColumnSortStates; now rewrite G).
      rewrite E. unfold setColumnSortStates. now rewrite G.
  - assert (Hnz : (dir =? 0) = false) by now apply Z.eqb_neq.
    assert (G1 : exists state, JsMap.get sameColumn column s1 = Some state /\
                               direction state = dir).
    { unfold s1, setColumnSortStates.
      destruct (JsMap.get sameColumn column s) as [state|] eqn:G.
      - rewrite Hnz.
        destruct (Z.eqb_spec (direction state) dir) as [Ed|Ed]; simpl.
        + eauto.
        + rewrite get_set_same. eauto.
      - rewrite Hnz. simpl. rewrite get_set_same. eauto. }
    destruct G1 as (state & G1 & Ed).
    unfold setColumnSortStates at 1. rewrite G1, Hnz, Ed, Z.eqb_refl.
    reflexivity.
Qed.

(** X13. Calling [setColumnSort] a second time with the same column and
    direction changes nothing but the count of update requests: the store
    and the rows stay as the first call left them, and the rows are not
    sorted again. In particular [clearColumnSort] is idempotent. *)
Theorem setColumnSort_idempotent (t : DataTable Row) (column : Column)
  (dir : Z) :
  NoDup (keyRefs (sortStates t)) ->
  let t1 := setColumnSort t column dir in
  let t2 := setColumnSort t1 column dir in
  sortStates t2 = sortStates t1 /\
  data t2 = data t1 /\
  sortRuns t2 = sortRuns t1 /\
  updateRequests t2 = S (updateRequests t1).
Proof.
  intros Hnd t1 t2.
  pose proof (setColumnSortStates_again (sortStates t) column dir Hnd) as H.
  cbv zeta in H.
  rewrite <- (sortStates_setColumnSort t column dir) in H. fold t1 in H.
  unfold t2.
  rewrite sortStates_setColumnSort, data_setColumnSort,
    sortRuns_setColumnSort, H.
  repeat split.
  unfold setColumnSort. rewrite H. reflexivity.
Qed.

(** X14. [clearColumnSort] on a column that has no entry is a no-op apart
    from the update request: store, rows and everything else stay. *)
Theorem clearColumnSort_absent (t : DataTable Row) (column : Column) :
  JsMap.get sameColumn column (sortStates t) = None ->
  clearColumnSort t column = requestUpdate t.
Proof.
  intros G. unfold clearColumnSort, setColumnSort, setColumnSortStates.
  rewrite G. simpl. destruct t. reflexivity.
Qed.

(** X15. In multi-sort mode, toggling a column that is sorted already
    only inverts its direction: the columns of the store, their storage
    order and all priorities stay, and so does the entry of every other
    column. *)
Theorem multi_toggle_flips_only (t : DataTable Row) (column : Column)
  (state : SortState) :
  multiSort t = true ->
  JsMap.get sameColumn column (sortStates t) = Some state ->
  validDirection state ->
  let s' := sortStates (toggleColumnSort t column) in
  keyRefs s' = keyRefs (sortStates t) /\
  priorities s' = priorities (sortStates t) /\
  JsMap.get sameColumn column s' =
    Some {| direction := - direction state; priority := priority state |} /\
  (forall other : Column, ref other <> ref column ->
     JsMap.get sameColumn other s' = JsMap.get sameColumn other (sortStates t)).
Proof.
  intros Hmulti G Hvalid s'.
  assert (E : s' = JsMap.set sameColumn column
                     {| direction := - direction state;
                        priority := priority state |} (sortStates t)).
  { unfold s'. rewrite sortStates_toggleColumnSort, Hmulti.
    unfold directionOf, setColumnSortStates. rewrite G. simpl orMinusOne.
    assert (H1 : (direction state * -1 =? 0) = false)
      by (apply Z.eqb_neq; destruct Hvalid; lia).
    assert (H2 : (direction state =? direction state * -1) = false)
      by (apply Z.eqb_neq; destruct Hvalid; lia).
    rewrite H1, H2. simpl. do 2 f_equal. lia. }
  rewrite E.
  destruct (get_some_split _ _ _ G)
    as (l1 & k & l2 & Hs & Hk & Hl1 & Hset & _).
  repeat split.
  - rewrite Hset, Hs, !keyRefs_app. reflexivity.
  - rewrite Hset, Hs, !priorities_app. reflexivity.
  - apply get_set_same.
  - intros other Hne. now apply get_set_other.
Qed.

Lemma Permutation_filter {A : Type} (p : A -> bool) (l1 l2 : list A) :
  Permutation l1 l2 -> Permutation (filter p l1) (filter p l2).
Proof.
  induction 1 as [|x l1 l2 _ IH|x y l|l1 l2 l3 _ IH1 _ IH2]; simpl.
  - constructor.
  - destruct (p x); [now constructor | exact IH].
  - destruct (p x), (p y); try apply Permutation_refl. apply perm_swap.
  - eapply perm_trans; eassumption.
Qed.

Lemma StronglySorted_filter {A : Type} (R : A -> A -> Prop) (p : A -> bool)
  (l : list A) :
  StronglySorted R l -> StronglySorted R (filter p l).
Proof.
  induction 1 as [|x l Hs IH Hx]; simpl; [constructor|].
  destruct (p x); [|exact IH].
  constructor; [exact IH|].
  rewrite Forall_forall in *. intros y Hy.
  apply filter_In in Hy. now apply Hx.
Qed.

Lemma priorityOrder_strict (s : Store) :
  NoDup (priorities s) ->
  StronglySorted (fun a b : Entry => priority (snd a) < priority (snd b))
    (priorityOrder s).
Proof.
  intros Hnd.
  assert (Hnd' : NoDup (priorities (priorityOrder s))).
  { eapply Permutation_NoDup; [|exact Hnd].
    apply Permutation_sym, priorities_permutation, priorityOrder_permutation. }
  pose proof (priorityOrder_ascending s) as Hs.
  induction Hs as [|e l Hs IH He]; [constructor|].
  unfold priorities, JsMap.values in Hnd'. simpl in Hnd'.
  inversion Hnd' as [|? ? Hnotin Hrest]; subst.
  constructor; [now apply IH|].
  rewrite Forall_forall in *. intros y Hy.
  specialize (He y Hy).
  assert (priority (snd e) <> priority (snd y)).
  { intros E. apply Hnotin. rewrite E.
    apply in_map. now apply in_map. }
  lia.
Qed.

Lemma dense_NoDup (s : Store) : densePriorities s -> NoDup (priorities s).
Proof.
  intros Hd.
  eapply Permutation_NoDup; [apply Permutation_sym, Hd | apply range1_NoDup].
Qed.

(** X16. In multi-sort mode, toggling a column that is not sorted yet
    puts it at the end of the precedence chain, ascending, with the next
    priority; the chain before it is unchanged. *)
Theorem multi_toggle_appends (t : DataTable Row) (column : Column) :
  multiSort t = true ->
  storeInvariant (sortStates t) ->
  JsMap.get sameColumn column (sortStates t) = None ->
  priorityOrder (sortStates (toggleColumnSort t column)) =
  priorityOrder (sortStates t) ++
  [(column, {| direction := 1;
               priority := Z.of_nat (List.length (sortStates t)) + 1 |})].
Proof.
  intros Hmulti [Hnd Hd] G.
  rewrite toggle_absent by exact G. rewrite Hmulti.
  rewrite (nextPriority_dense _ Hd).
  apply priorityOrder_unique. split.
  - apply Permutation_app_tail, priorityOrder_permutation.
  - pose proof (priorityOrder_strict _ (dense_NoDup _ Hd)) as Hs.
    assert (Hbound : Forall (fun e : Entry =>
                        priority (snd e)
                        < Z.of_nat (List.length (sortStates t)) + 1)
                       (priorityOrder (sortStates t))).
    { apply Forall_forall. intros e He.
      assert (Hin : In (priority (snd e)) (priorities (sortStates t))).
      { apply (Permutation_in _ (priorityOrder_permutation _)) in He.
        unfold priorities, JsMap.values. apply in_map. now apply in_map. }
      apply (Permutation_in _ Hd) in Hin. apply in_range1 in Hin. lia. }
    induction Hs as [|e l Hs IH He]; simpl.
    + repeat constructor.
    + inversion Hbound; subst.
      constructor; [now apply IH|].
      apply Forall_app. split; [exact He|].
      constructor; [simpl; lia | constructor].
Qed.

Lemma delete_filter (s : Store) (column : Column) :
  NoDup (keyRefs s) ->
  JsMap.delete sameColumn column s =
  filter (fun e : Entry => negb (sameColumn column (fst e))) s.
Proof.
  induction s as [|[k v] s IH]; intros Hnd; simpl; [reflexivity|].
  inversion Hnd as [|? ? Hk Hnd']; subst.
  destruct (sameColumn column k) eqn:E; simpl.
  - apply sameColumn_true in E.
    symmetry. apply forallb_filter_id. apply forallb_forall.
    intros [k' v'] Hin. simpl. apply negb_true_iff, sameColumn_false.
    intros E'. apply Hk. rewrite <- E, E'.
    apply (in_map (fun e : Entry => ref (fst e)) _ _ Hin).
  - f_equal. now apply IH.
Qed.

Lemma reindex_columns (i : Z) (chain : list Entry) :
  map (fun e : Entry => (fst e, direction (snd e))) (reindex i chain)
  = map (fun e : Entry => (fst e, direction (snd e))) chain.
Proof.
  revert i. induction chain as [|[k v] chain IH]; intros i; simpl.
  - reflexivity.
  - f_equal. apply IH.
Qed.

(** X17. Clearing the sort of a column keeps the others in their order of
    precedence and with their directions: the chain of (column, direction)
    pairs afterwards is the chain before without the cleared column. *)
Theorem clear_keeps_precedence (s : Store) (column : Column)
  (sortState : SortState) :
  storeInvariant s ->
  JsMap.get sameColumn column s = Some sortState ->
  map (fun e : Entry => (fst e, direction (snd e)))
    (priorityOrder (fst (setColumnSortStates s column 0)))
  = map (fun e : Entry => (fst e, direction (snd e)))
      (filter (fun e : Entry => negb (sameColumn column (fst e)))
         (priorityOrder s)).
Proof.
  intros [Hnd Hd] G.
  destruct (setColumnSortStates_clear s column sortState Hnd G)
    as (_ & Hchain & _).
  rewrite Hchain, reindex_columns. f_equal.
  apply priorityOrder_unique. split.
  - rewrite delete_filter by exact Hnd.
    apply Permutation_filter, priorityOrder_permutation.
  - apply StronglySorted_filter, priorityOrder_strict, dense_NoDup, Hd.
Qed.

End StoreTransitions.

(* ================================================================== *)
(** ** More on pagination and on the rendered body *)

Section Pages.
Import Js Utility.
Context {Row : Type}.

Lemma slice_segment {A : Type} (l : list A) (start end_ : Z) :
  exists before after, l = before ++ slice l start end_ ++ after.
Proof.
  assert (H : forall k n : nat,
             exists before after, l = before ++ firstn n (skipn k l) ++ after).
  { intros k n. exists (firstn k l), (skipn n (skipn k l)).
    now rewrite firstn_skipn, firstn_skipn. }
  unfold slice. apply H.
Qed.

Lemma slice_length {A : Type} (l : list A) (start end_ : Z) :
  start <= end_ ->
  Z.of_nat (List.length (slice l start end_)) <= end_ - start.
Proof.
  intros Hle.
  unfold slice, clampIndex. cbv zeta. rewrite length_firstn, length_skipn.
  destruct (Z.ltb_spec start 0), (Z.ltb_spec end_ 0); lia.
Qed.

(** X18. Whatever the page size and the page index, [getDisplayData()]
    returns a run of consecutive rows of [data], in their order; with a
    page size above 0 it returns at most that many rows. *)
Theorem getDisplayData_segment (t : DataTable Row) :
  (exists before after, data t = before ++ getDisplayData t ++ after) /\
  (0 < pageSize t ->
   Z.of_nat (List.length (getDisplayData t)) <= pageSize t).
Proof.
  unfold getDisplayData. split.
  - destruct (negb (pageSize t =? 0)).
    + apply slice_segment.
    + exists [], []. now rewrite app_nil_r.
  - intros Hs. destruct (Z.eqb_spec (pageSize t) 0); [lia|]. simpl.
    pose proof (slice_length (data t) (pageIndex t * pageSize t)
                  (pageIndex t * pageSize t + pageSize t)). lia.
Qed.

Lemma page_rows (t : DataTable Row) (n : nat) :
  0 < pageSize t ->
  getDisplayData (assignPageIndex t (Z.of_nat n)) =
  firstn (Z.to_nat (pageSize t))
    (skipn (n * Z.to_nat (pageSize t)) (data t)).
Proof.
  intros Hs. unfold getDisplayData. cbn [pageSize pageIndex data assignPageIndex].
  destruct (Z.eqb_spec (pageSize t) 0); [lia|]. simpl negb. cbv iota.
  rewrite slice_forward by lia. do 2 f_equal. nia.
Qed.

Lemma chunks_concat {A : Type} (s : nat) (n : nat) :
  forall l : list A,
    (List.length l <= n * s)%nat ->
    List.concat (map (fun i => firstn s (skipn (i * s) l)) (seq 0 n)) = l.
Proof.
  induction n as [|n IH]; intros l Hl.
  - simpl in *. destruct l; [reflexivity | simpl in Hl; lia].
  - cbn [seq map List.concat]. rewrite <- seq_shift, map_map.
    rewrite (map_ext _ (fun i => firstn s (skipn (i * s) (skipn s l)))).
    + rewrite IH by (rewrite length_skipn; lia).
      simpl. apply firstn_skipn.
    + intros i. rewrite skipn_skipn. do 2 f_equal. lia.
Qed.

Lemma pageCount_bounds (t : DataTable Row) :
  0 < pageSize t ->
  (pageCount t - 1) * pageSize t < Z.of_nat (List.length (data t))
    <= pageCount t * pageSize t.
Proof.
  intros Hs. unfold pageCount.
  destruct (Z.gtb_spec (pageSize t) 0); [|lia].
  now apply ceilDiv_bounds.
Qed.

(** X19. With a page size above 0, the pages [0 .. pageCount - 1] cut
    [data] into consecutive pieces: put one after the other they give
    [data] back, and none of them is empty. *)
Theorem pages_partition_data (t : DataTable Row) :
  0 < pageSize t ->
  List.concat (allPages t) = data t /\
  Forall (fun page => page <> []) (allPages t).
Proof.
  intros Hs. pose proof (pageCount_bounds t Hs) as Hb.
  assert (H0 : 0 <= pageCount t) by nia.
  unfold allPages. split.
  - rewrite (map_ext_in _
      (fun n => firstn (Z.to_nat (pageSize t))
                  (skipn (n * Z.to_nat (pageSize t)) (data t)))).
    + apply chunks_concat. nia.
    + intros n _. now apply page_rows.
  - apply Forall_forall. intros page Hin.
    apply in_map_iff in Hin. destruct Hin as (n & <- & Hn).
    apply in_seq in Hn. rewrite page_rows by exact Hs.
    intros E. apply (f_equal (@List.length Row)) in E.
    rewrite length_firstn, length_skipn in E. simpl in E. nia.
Qed.

(** X20. With a page size above 0 and a page index that is not negative,
    [getDisplayData()] returns at least one row exactly when the page index
    is below [pageCount]. *)
Theorem page_nonempty_iff (t : DataTable Row) :
  0 < pageSize t -> 0 <= pageIndex t ->
  (getDisplayData t <> [] <-> pageIndex t < pageCount t).
Proof.
  intros Hs Hi. pose proof (pageCount_bounds t Hs) as Hb.
  unfold getDisplayData.
  destruct (Z.eqb_spec (pageSize t) 0); [lia|]. simpl negb. cbv iota.
  rewrite slice_forward by nia.
  split.
  - intros Hne. destruct (Z.lt_ge_cases (pageIndex t) (pageCount t)); [assumption|].
    exfalso. apply Hne. rewrite skipn_all2 by nia. apply firstn_nil.
  - intros Hlt E. apply (f_equal (@List.length Row)) in E.
    rewrite length_firstn, length_skipn in E. simpl in E. nia.
Qed.

Lemma nth_error_mapIndexedFrom {A B : Type} (f : A -> Z -> B) (l : list A) :
  forall (k : Z) (i : nat),
    nth_error (mapIndexedFrom k f l) i =
    option_map (fun x => f x (k + Z.of_nat i)) (nth_error l i).
Proof.
  induction l as [|x l IH]; intros k i.
  - destruct i; reflexivity.
  - destruct i as [|i]; cbn [mapIndexedFrom nth_error option_map].
    + do 2 f_equal. lia.
    + rewrite IH. destruct (nth_error l i); simpl; [|reflexivity].
      do 2 f_equal. lia.
Qed.

(** X21. With a page size and a page index that are not negative, every
    cell of the rendered body comes from the row that stands in [data] at
    the very [rowIndex] the renderer of its column was handed, and carries
    the class of its column. *)
Theorem renderBody_row_index (t : DataTable Row) (i j : nat)
  (cells : list Cell) (cell : Cell) :
  0 <= pageSize t -> 0 <= pageIndex t ->
  nth_error (renderBody t) i = Some cells ->
  nth_error cells j = Some cell ->
  exists row column,
    nth_error (data t) (Z.to_nat (Z.of_nat i + pageFactor t)) = Some row /\
    nth_error (columns t) j = Some column /\
    cell = {| cellClass := columnClass column (Z.of_nat j);
              cellContent :=
                render column row
                  {| rowIndex := Z.of_nat i + pageFactor t |} |}.
Proof.
  intros Hs Hi Hrow Hcell.
  unfold renderBody, mapIndexed in Hrow.
  rewrite nth_error_mapIndexedFrom in Hrow.
  destruct (nth_error (getDisplayData t) i) as [row|] eqn:Erow;
    [|discriminate].
  simpl in Hrow. injection Hrow as <-.
  unfold renderRow, mapIndexed in Hcell.
  rewrite nth_error_mapIndexedFrom in Hcell.
  destruct (nth_error (columns t) j) as [column|] eqn:Ecol; [|discriminate].
  simpl in Hcell. injection Hcell as <-.
  exists row, column. split; [|split; reflexivity].
  unfold getDisplayData, pageFactor in *.
  destruct (Z.eqb_spec (pageSize t) 0) as [E0|E0]; simpl in Erow.
  - rewrite E0, Z.mul_0_r, Z.add_0_r, Nat2Z.id. exact Erow.
  - rewrite slice_forward in Erow by nia.
    rewrite nth_error_firstn in Erow.
    destruct (Nat.ltb i (Z.to_nat (pageSize t))); [|discriminate].
    rewrite nth_error_skipn in Erow.
    replace (Z.to_nat (Z.of_nat i + pageIndex t * pageSize t))
      with (Z.to_nat (pageIndex t * pageSize t) + i)%nat by nia.
    exact Erow.
Qed.

End Pages.

(* ================================================================== *)
(** ** Class lists *)

Section ClassLists.
Import Js Utility.
Local Open Scope string_scope.

Lemma append_assoc (a b c : string) : (a ++ b) ++ c = a ++ (b ++ c).
Proof. induction a as [|x a IH]; simpl; [reflexivity | now rewrite IH]. Qed.

Lemma concat_app (sep : string) (l1 l2 : list string) :
  l1 <> [] -> l2 <> [] ->
  String.concat sep (l1 ++ l2) =
  String.concat sep l1 ++ sep ++ String.concat sep l2.
Proof.
  intros H1 H2. induction l1 as [|x l1 IH]; [contradiction|].
  destruct l1 as [|y l1].
  - destruct l2 as [|z l2]; [contradiction | reflexivity].
  - change (String.concat sep ((x :: y :: l1) ++ l2))
      with (x ++ sep ++ String.concat sep ((y :: l1) ++ l2)).
    rewrite IH by discriminate.
    change (String.concat sep (x :: y :: l1))
      with (x ++ sep ++ String.concat sep (y :: l1)).
    now rewrite !append_assoc.
Qed.

Lemma concat_nonempty (sep : string) (l : list string) :
  Forall (fun s => s <> "") l -> l <> [] -> String.concat sep l <> "".
Proof.
  intros Hl Hne. destruct l as [|x l]; [contradiction|].
  inversion Hl as [|? ? Hx _]; subst.
  destruct x as [|c x]; [contradiction|].
  destruct l; simpl; discriminate.
Qed.

Lemma classTokens_nonempty (value : ClassValue) :
  noEmptyKeys value -> Forall (fun s => s <> "") (classTokens value).
Proof.
  destruct value as [s| |entries]; simpl.
  - intros _. destruct (String.eqb_spec s ""); repeat constructor; auto.
  - constructor.
  - induction 1 as [|[key condition] entries He _ IH]; simpl.
    + constructor.
    + destruct condition; simpl; [|exact IH].
      constructor; [now apply He | exact IH].
Qed.

Lemma tokens_nonempty (values : list ClassValue) :
  Forall noEmptyKeys values ->
  Forall (fun s => s <> "") (flat_map classTokens values).
Proof.
  induction 1 as [|v values Hv _ IH]; simpl; [constructor|].
  apply Forall_app. split; [now apply classTokens_nonempty | exact IH].
Qed.

(** X22. Class lists nest: as long as no record switches the empty key
    on, the result of one [spaceList] call can be handed to another, and
    [spaceList(spaceList(...a), spaceList(...b))] is [spaceList(...a, ...b)];
    an empty result leaves no stray space. *)
Theorem spaceList_nested (a b : list ClassValue) :
  Forall noEmptyKeys a -> Forall noEmptyKeys b ->
  spaceList [ClassString (spaceList a); ClassString (spaceList b)]
  = spaceList (a ++ b).
Proof.
  intros Ha Hb. apply tokens_nonempty in Ha, Hb.
  unfold spaceList. rewrite flat_map_app.
  set (ta := flat_map classTokens a) in *.
  set (tb := flat_map classTokens b) in *.
  cbn [flat_map classTokens]. rewrite app_nil_r.
  destruct ta as [|x ta].
  - cbn [String.concat]. simpl.
    destruct (String.eqb_spec (String.concat " " tb) "") as [E|E];
      [now rewrite E | reflexivity].
  - assert (Ea : String.concat " " (x :: ta) <> "")
      by (apply concat_nonempty; [exact Ha | discriminate]).
    apply String.eqb_neq in Ea. rewrite Ea.
    destruct tb as [|y tb].
    + simpl String.eqb. cbv iota. now rewrite !app_nil_r.
    + assert (Eb : String.concat " " (y :: tb) <> "")
        by (apply concat_nonempty; [exact Hb | discriminate]).
      apply String.eqb_neq in Eb. rewrite Eb.
      rewrite (concat_app " " (x :: ta) (y :: tb)) by discriminate.
      reflexivity.
Qed.

(** X23. [columnClass(column, index)] is ["cell column-<index>"], followed
    by a space and the [id] of the column when it has one that is not the
    empty string. *)
Theorem columnClass_value {Row : Type} (column : ColumnDefinition Row)
  (index : Z) :
  columnClass column index =
  "cell column-" ++ stringOfZ index ++
  match id column with
  | Some s => if String.eqb s "" then "" else " " ++ s
  | None => ""
  end.
Proof.
  unfold columnClass, spaceList. cbn [flat_map classTokens].
  change (String.eqb "cell" "") with false.
  change (String.eqb ("column-" ++ stringOfZ index) "") with false.
  cbv iota.
  assert (Hr : forall s : string, s ++ "" = s)
    by (induction s as [|c s IH]; simpl; [reflexivity | now rewrite IH]).
  destruct (id column) as [s|].
  - cbn [classTokens]. destruct (String.eqb s ""); simpl;
      rewrite ?Hr; reflexivity.
  - simpl. now rewrite Hr.
Qed.

End ClassLists.

(* ================================================================== *)
(** ** Calls and pagination; the calls of the matcher *)

Section CallsAndPages.
Import Js Utility.
Context {Row : Type}.

Local Abbreviation Column := (ColumnDefinition Row).

Lemma setColumnSort_page_fields (t : DataTable Row) (column : Column)
  (dir : Z) :
  pageSize (setColumnSort t column dir) = pageSize t /\
  pageIndex (setColumnSort t column dir) = pageIndex t /\
  columns (setColumnSort t column dir) = columns t.
Proof.
  unfold setColumnSort.
  destruct (setColumnSortStates (sortStates t) column dir) as [s' []];
    repeat split.
Qed.

Lemma perform_page_fields (t : DataTable Row) (c : Call) :
  pageSize (perform t c) = pageSize t /\
  pageIndex (perform t c) = pageIndex t /\
  columns (perform t c) = columns t.
Proof.
  destruct c as [column|column|column dir| |flag]; simpl.
  - unfold toggleColumnSort.
    destruct (setColumnSort_page_fields
                (if negb (multiSort t) then clearTableSort t else t) column
                ((match JsMap.get sameColumn column (sortStates t) with
                  | Some state => direction state
                  | None => -1
                  end) * -1)) as (H1 & H2 & H3).
    rewrite H1, H2, H3. destruct (multiSort t); repeat split.
  - apply setColumnSort_page_fields.
  - apply setColumnSort_page_fields.
  - repeat split.
  - repeat split.
Qed.

(** X24. No call of the sorting methods touches the pagination: page
    size, page index and columns stay, and since the number of rows stays
    too, so does [pageCount]. *)
Theorem calls_keep_pagination (t : DataTable Row) (calls : list Call) :
  pageSize (performAll t calls) = pageSize t /\
  pageIndex (performAll t calls) = pageIndex t /\
  columns (performAll t calls) = columns t /\
  pageCount (performAll t calls) = pageCount t.
Proof.
  revert t. induction calls as [|c calls IH]; intros t; simpl.
  - repeat split.
  - destruct (IH (perform t c)) as (H1 & H2 & H3 & H4).
    destruct (perform_page_fields t c) as (P1 & P2 & P3).
    rewrite H1, H2, H3, H4, P1, P2, P3. repeat split.
    unfold pageCount. rewrite P1.
    now rewrite (Permutation_length (perform_permutes_data t c)).
Qed.

(** X25. [baseComparator] calls the matcher at most once, and only with
    two defined values that are not identical: the matcher never sees
    [null] or [undefined]. *)
Theorem matcher_sees_defined_values {S : Type} (selector : S -> Value)
  (matcher : Comparator Value) (sourceA sourceB : S) :
  let calls := snd (baseComparatorTraced selector matcher sourceA sourceB) in
  (List.length calls <= 1)%nat /\
  Forall (fun c : Value * Value =>
            isDefined (fst c) = true /\ isDefined (snd c) = true /\
            strictEq (fst c) (snd c) = false) calls.
Proof.
  unfold baseComparatorTraced, ret, call.
  destruct (strictEq (selector sourceA) (selector sourceB)) eqn:E;
    destruct (isDefined (selector sourceA)) eqn:Ea;
    destruct (isDefined (selector sourceB)) eqn:Eb; simpl;
    split; try lia; repeat constructor; auto.
Qed.

End CallsAndPages.

(* ================================================================== *)
(** ** The further properties on the concrete tables *)

Section MoreInstances.
Import Js Utility Sample Sample2.

Lemma keyOf_numberColumn (r : nat) : numberColumn (fun _ => True) (keyOf r).
Proof.
  split; [discriminate|].
  intros [[n|] name] _; [right; exists n | left]; reflexivity.
Qed.

Lemma nameOf_textColumn (r : nat) : textColumn (fun _ => True) (nameOf r).
Proof.
  split; [discriminate|].
  intros [key name] _. right. exists name. reflexivity.
Qed.

Lemma codeCompare_consistent : consistentOn (fun _ => True) codeCompare.
Proof.
  destruct valueMatcher_consistent_strings as [Ha Ht].
  assert (E : forall x y, codeCompare x y = valueMatcher (VString x) (VString y))
    by (intros; symmetry; apply valueMatcher_strings).
  split.
  - intros a b _ _. rewrite !E. apply Ha; eauto.
  - intros a b c _ _ _. rewrite !E. apply Ht; eauto.
Qed.

Lemma keyThenName_consistent :
  forall e, In e keyThenName ->
    consistentOn (fun _ : NamedRow => True) (columnResult (fst e)) /\
    validDirection (snd e).
Proof.
  intros e He. simpl in He. destruct He as [He|[He|He]];
    [subst e | subst e | contradiction]; split.
  - apply numberColumn_consistent, keyOf_numberColumn.
  - right. reflexivity.
  - apply textColumn_consistent, nameOf_textColumn.
  - left. reflexivity.
Qed.

Lemma people_all : Forall (fun _ : NamedRow => True) people.
Proof. now apply Forall_forall. Qed.

Lemma twoColumnStore_invariant : storeInvariant twoColumnStore.
Proof.
  split.
  - constructor; [intros [H|[]]; discriminate|].
    constructor; [intros []|constructor].
  - apply Permutation_refl.
Qed.

Lemma baseComparator_consistent_witness :
  consistentOn (fun _ : option Z => True) (baseComparator ofNumber valueMatcher).
Proof.
  apply (baseComparator_consistent (fun _ => True)
           (fun v => exists n, v = VNumber n) ofNumber valueMatcher).
  - intros [n|] _ H; [exists n; reflexivity | discriminate].
  - apply strictEq_numbers.
  - apply valueMatcher_consistent_numbers.
Defined.

Lemma textComparator_consistent_witness :
  consistentOn (fun _ => True) codeCompare /\
  consistentOn (fun _ : NamedRow => True)
    (textComparator codeCompare (fun row => Some (snd row))).
Proof.
  split; [apply codeCompare_consistent|].
  apply (textComparator_consistent codeCompare (fun row => Some (snd row))
           codeCompare_consistent).
Defined.

Lemma sortData_sorts_witness :
  let t := withSortStates (namedTable true 0 0) keyThenName in
  data (sortData t) =
    [(Some 1, "cy"); (Some 1, "bob"); (Some 2, "eve"); (Some 2, "al");
     (None, "zed")]%string /\
  StronglySorted
    (fun a b => rowComparator (priorityOrder (sortStates t)) a b <= 0)
    (data (sortData t)).
Proof.
  intros t. split; [reflexivity|].
  apply (sortData_sorts t (fun _ => True) people_all keyThenName_consistent).
Defined.

Lemma sortData_sorts_by_first_column_witness :
  let t := withSortStates (namedTable true 0 0) keyThenName in
  priorityOrder (sortStates t) = keyThenName /\
  StronglySorted
    (fun a b => columnResult (keyOf 0) a b * 1 <= 0)
    (data (sortData t)).
Proof.
  intros t. split; [reflexivity|].
  apply (sortData_sorts_by_first_column t (fun _ => True) (keyOf 0)
           {| direction := 1; priority := 1 |}
           [(nameOf 1, {| direction := -1; priority := 2 |})]
           people_all keyThenName_consistent eq_refl).
Defined.


Lemma sortData_idempotent_witness :
  let t := withSortStates (namedTable true 0 0) keyThenName in
  data (sortData (sortData t)) = data (sortData t).
Proof.
  intros t.
  apply (sortData_idempotent t (fun _ => True) people_all
           keyThenName_consistent).
Defined.


Lemma toggle_sorts_text_column_witness :
  let t := withSortStates (namedTable false 0 0)
             [(nameOf 1, {| direction := 1; priority := 1 |})] in
  multiSort t = false /\
  directionOf t (nameOf 1) = Some 1 /\
  data (toggleColumnSort t (nameOf 1)) =
    [(None, "zed"); (Some 2, "eve"); (Some 1, "cy"); (Some 1, "bob");
     (Some 2, "al")]%string /\
  StronglySorted
    (fun a b => textsThenAbsent (cellText (nameOf 1) b)
                  (cellText (nameOf 1) a))
    (data (toggleColumnSort t (nameOf 1))).
Proof.
  intros t.
  assert (Hv : forall state,
             JsMap.get sameColumn (nameOf 1) (sortStates t) = Some state ->
             validDirection state).
  { intros state [= <-]. right. reflexivity. }
  split; [reflexivity|]. split; [reflexivity|]. split; [reflexivity|].
  apply (proj2 (toggle_sorts_text_column t (fun _ => True) (nameOf 1)
                  eq_refl (nameOf_textColumn 1) people_all Hv) eq_refl).
Defined.

Lemma store_well_formed_witness :
  let t := table threeRows true 0 0 in
  let calls := [ToggleColumnSort (keyColumn 0); SetColumnSort (keyColumn 1) (-1);
                ToggleColumnSort (keyColumn 0); ClearColumnSort (keyColumn 1);
                SetColumnSort (plainColumn 2) 1] in
  sortStates t = [] /\
  Forall typedCall calls /\
  NoDup (keyRefs (sortStates (performAll t calls))) /\
  Forall (fun e => validDirection (snd e)) (sortStates (performAll t calls)).
Proof.
  intros t calls.
  assert (Ht : Forall typedCall calls).
  { unfold calls.
    constructor; [exact I|]. constructor; [left; reflexivity|].
    constructor; [exact I|]. constructor; [exact I|].
    constructor; [right; right; reflexivity | constructor]. }
  split; [reflexivity|]. split; [exact Ht|].
  apply (store_well_formed t calls eq_refl Ht).
Defined.


Lemma setColumnSort_idempotent_witness :
  let t := withSortStates (table threeRows true 0 0) twoColumnStore in
  let t1 := setColumnSort t (keyColumn 0) 0 in
  NoDup (keyRefs (sortStates t)) /\
  sortStates t1 = [(keyColumn 1, state (-1) 1)] /\
  sortStates (setColumnSort t1 (keyColumn 0) 0) = sortStates t1.
Proof.
  intros t t1.
  destruct twoColumnStore_invariant as [Hnd _].
  split; [exact Hnd|]. split; [reflexivity|].
  apply (setColumnSort_idempotent t (keyColumn 0) 0 Hnd).
Defined.

Lemma clearColumnSort_absent_witness :
  let t := withSortStates (table threeRows true 0 0) twoColumnStore in
  JsMap.get sameColumn (plainColumn 2) (sortStates t) = None /\
  clearColumnSort t (plainColumn 2) = requestUpdate t.
Proof.
  intros t. split; [reflexivity|].
  apply (clearColumnSort_absent t (plainColumn 2) eq_refl).
Defined.

Lemma multi_toggle_flips_only_witness :
  let t := withSortStates (table threeRows true 0 0) twoColumnStore in
  multiSort t = true /\
  JsMap.get sameColumn (keyColumn 1) (sortStates t) = Some (state (-1) 2) /\
  priorities (sortStates (toggleColumnSort t (keyColumn 1)))
  = priorities (sortStates t).
Proof.
  intros t. split; [reflexivity|]. split; [reflexivity|].
  apply (multi_toggle_flips_only t (keyColumn 1) (state (-1) 2)
           eq_refl eq_refl (or_introl eq_refl)).
Defined.

Lemma multi_toggle_appends_witness :
  let t := withSortStates (table threeRows true 0 0) twoColumnStore in
  storeInvariant (sortStates t) /\
  priorityOrder (sortStates (toggleColumnSort t (plainColumn 2))) =
  priorityOrder (sortStates t) ++ [(plainColumn 2, state 1 (2 + 1))].
Proof.
  intros t. split; [apply twoColumnStore_invariant|].
  apply (multi_toggle_appends t (plainColumn 2) eq_refl
           twoColumnStore_invariant eq_refl).
Defined.

Lemma clear_keeps_precedence_witness :
  storeInvariant twoColumnStore /\
  map (fun e : ColumnDefinition SampleRow * SortState =>
         (fst e, direction (snd e)))
    (priorityOrder (fst (setColumnSortStates twoColumnStore (keyColumn 0) 0)))
  = [(keyColumn 1, -1)].
Proof.
  split; [apply twoColumnStore_invariant|].
  apply (clear_keeps_precedence twoColumnStore (keyColumn 0) (state 1 1)
           twoColumnStore_invariant eq_refl).
Defined.

Lemma getDisplayData_segment_witness :
  let t := table tenRows false 3 1 in
  0 < pageSize t /\
  Z.of_nat (List.length (getDisplayData t)) <= pageSize t.
Proof.
  intros t. split; [reflexivity|].
  apply (proj2 (getDisplayData_segment t)). reflexivity.
Defined.

Lemma pages_partition_data_witness :
  let t := table tenRows false 3 0 in
  0 < pageSize t /\
  allPages t =
    [[Some 0; Some 1; Some 2]; [Some 3; Some 4; Some 5];
     [Some 6; Some 7; Some 8]; [Some 9]] /\
  List.concat (allPages t) = data t.
Proof.
  intros t. split; [reflexivity|]. split; [reflexivity|].
  apply (proj1 (pages_partition_data t eq_refl)).
Defined.

Lemma page_nonempty_iff_witness :
  let t := table tenRows false 3 3 in
  0 < pageSize t /\ 0 <= pageIndex t /\ pageIndex t < pageCount t /\
  getDisplayData t <> [].
Proof.
  intros t.
  assert (Hs : 0 < pageSize t) by reflexivity.
  assert (Hi : 0 <= pageIndex t) by discriminate.
  assert (Hc : pageIndex t < pageCount t) by reflexivity.
  split; [exact Hs|]. split; [exact Hi|]. split; [exact Hc|].
  apply (proj2 (page_nonempty_iff t Hs Hi) Hc).
Defined.

Lemma renderBody_row_index_witness :
  let t := table tenRows false 3 1 in
  0 <= pageSize t /\ 0 <= pageIndex t /\
  exists row column,
    nth_error (data t) (Z.to_nat (Z.of_nat 2 + pageFactor t)) = Some row /\
    nth_error (columns t) 0 = Some column /\
    {| cellClass := "cell column-0"; cellContent := VNumber 5 |} =
    {| cellClass := columnClass column (Z.of_nat 0);
       cellContent :=
         render column row {| rowIndex := Z.of_nat 2 + pageFactor t |} |}.
Proof.
  intros t.
  assert (Hs : 0 <= pageSize t) by discriminate.
  assert (Hi : 0 <= pageIndex t) by discriminate.
  split; [exact Hs|]. split; [exact Hi|].
  apply (renderBody_row_index t 2 0
           (renderRow t (Some 5) 2)
           {| cellClass := "cell column-0"; cellContent := VNumber 5 |}
           Hs Hi eq_refl eq_refl).
Defined.

Lemma spaceList_nested_witness :
  let a := [ClassString "cell"; ClassUndefined; ClassString ""] in
  let b := [ClassRecord [("sorted", true); ("hidden", false)]%string] in
  Forall noEmptyKeys a /\ Forall noEmptyKeys b /\
  spaceList (a ++ b) = "cell sorted"%string /\
  spaceList [ClassString (spaceList a); ClassString (spaceList b)]
  = spaceList (a ++ b).
Proof.
  intros a b.
  assert (Ha : Forall noEmptyKeys a) by (repeat constructor).
  assert (Hb : Forall noEmptyKeys b).
  { repeat constructor; simpl; intros; discriminate. }
  split; [exact Ha|]. split; [exact Hb|]. split; [reflexivity|].
  apply (spaceList_nested a b Ha Hb).
Defined.

End MoreInstances.
